(** * pytask: resolution of task dependencies

    A shallow embedding of [src/pytask/resolve_dependencies.py]: the graph
    of tasks and data nodes is built, validated (no cycle, no missing root
    node) and the tasks whose neighbourhood is unchanged are marked
    [skip_unchanged].

    Python dictionaries keep insertion order, so the node dictionary of the
    graph is an association list; the database of persisted states is a
    finite map.  Exceptions are values of [exn], and a call that may raise
    returns a [result]. *)

From stdpp Require Import base option list strings gmap.

(* stdpp's solvers clear hypotheses that may be gone already. *)
#[global] Set Warnings "-clear-no-such-hyp".

(** * Exceptions and results *)

(** The exceptions that travel through the module.  [NodeNotFoundError]
    is raised bare by a node's [state()] and with a message naming the
    node and its successors by the check of the root nodes;
    [ResolvingDependenciesError] is raised with the cycles by the cycle
    check and bare by the entry point.  [OtherException] stands for any
    other subclass of [Exception] (an I/O or permission fault of a state
    query, for instance). *)
Inductive exn : Type :=
| NodeNotFoundError (detail : option (string * list string))
| ResolvingDependenciesError (cycles : option (list (string * string)))
| ObjectNotFound
| KeyError (key : string)
| NetworkXNoCycle
| NetworkXUnfeasible
| OtherException (what : string).

Inductive result (A : Type) : Type :=
| Return (a : A)
| Raise (e : exn).
Arguments Return {A} a.
Arguments Raise {A} e.

(** Sequencing: an exception ends the computation. *)
#[global] Instance result_ret : MRet result := λ A a, Return a.
#[global] Instance result_bind : MBind result := λ A B k r,
  match r with
  | Return a => k a
  | Raise e => Raise e
  end.

(** * Data model *)

(** [Mark(name, args, kwargs)] *)
Record Mark : Type := mkMark {
  mark_name : string;
  mark_args : list string;
  mark_kwargs : list (string * string)
}.

(** What a call of [state()] does: it returns the current state, raises
    [NodeNotFoundError] because the node does not exist, or fails with
    another exception.  The query is a read without side effect, so one
    outcome describes every call of a resolution. *)
Inductive state_outcome : Type :=
| Exists (state : string)
| Missing
| Fault (what : string).

Definition call_state (o : state_outcome) : result string :=
  match o with
  | Exists state => Return state
  | Missing => Raise (NodeNotFoundError None)
  | Fault what => Raise (OtherException what)
  end.

(** A data node: its name and its [state()]. *)
Module Node.
Record t : Type := mk {
  name : string;
  state : state_outcome
}.
End Node.

(** A task: its name, dependencies, products, the list of markers (the
    only part the resolution mutates) and its [state()]. *)
Module Task.
Record t : Type := mk {
  name : string;
  depends_on : list Node.t;
  produces : list Node.t;
  markers : list Mark;
  state : state_outcome
}.

Definition append_marker (task : t) (m : Mark) : t :=
  mk (name task) (depends_on task) (produces task) (markers task ++ [m])
     (state task).
End Task.

(** The attribute dictionary of a graph node, with its two possible keys
    ["task"] and ["node"]. *)
Record NodeDict : Type := mkNodeDict {
  attr_task : option Task.t;
  attr_node : option Node.t
}.

(** [d.update(kw)]: the keys given in [kw] replace those of [d]. *)
Definition dict_update (d kw : NodeDict) : NodeDict :=
  {| attr_task := match attr_task kw with Some t => Some t | None => attr_task d end;
     attr_node := match attr_node kw with Some n => Some n | None => attr_node d end |}.

(** The pony entity [State], with primary key (task, node). *)
Abbreviation Database := (gmap (string * string) string).

(** [State[task, node].state] *)
Definition State_getitem (State : Database) (task node : string) : result string :=
  match State !! (task, node) with
  | Some s => Return s
  | None => Raise ObjectNotFound
  end.

(** * The part of networkx the module uses *)

Module nx.

(** [nx.DiGraph]: the node dictionary and the edges, both in insertion
    order. *)
Record DiGraph : Type := mkDiGraph {
  nodes : list (string * NodeDict);
  edges : list (string * string)
}.

Definition empty : DiGraph := {| nodes := []; edges := [] |}.

Definition names (G : DiGraph) : list string := (nodes G).*1.

Fixpoint assoc (n : string) (l : list (string * NodeDict)) : option NodeDict :=
  match l with
  | [] => None
  | (k, d) :: l' => if decide (k = n) then Some d else assoc n l'
  end.

Fixpoint assoc_alter (f : NodeDict → NodeDict) (n : string)
    (l : list (string * NodeDict)) : list (string * NodeDict) :=
  match l with
  | [] => []
  | (k, d) :: l' =>
      if decide (k = n) then (k, f d) :: l' else (k, d) :: assoc_alter f n l'
  end.

(** [G.nodes[n]] *)
Definition getitem (G : DiGraph) (n : string) : option NodeDict :=
  assoc n (nodes G).

(** [G.add_node(n, **attr)] *)
Definition add_node (n : string) (attr : NodeDict) (G : DiGraph) : DiGraph :=
  if decide (n ∈ names G)
  then {| nodes := assoc_alter (λ d, dict_update d attr) n (nodes G);
          edges := edges G |}
  else {| nodes := nodes G ++ [(n, attr)]; edges := edges G |}.

(** The start of [G.add_edge]: a node that is not in the graph yet is
    added with an empty attribute dictionary. *)
Definition ensure_node (n : string) (G : DiGraph) : DiGraph :=
  if decide (n ∈ names G) then G
  else {| nodes := nodes G ++ [(n, mkNodeDict None None)]; edges := edges G |}.

(** [G.add_edge(u, v)] *)
Definition add_edge (u v : string) (G : DiGraph) : DiGraph :=
  let G' := ensure_node v (ensure_node u G) in
  if decide ((u, v) ∈ edges G') then G'
  else {| nodes := nodes G'; edges := edges G' ++ [(u, v)] |}.

(** [G.predecessors(n)] and [G.successors(n)], for a node [n] of [G]. *)
Definition predecessors (G : DiGraph) (n : string) : list string :=
  (filter (λ e, e.2 = n) (edges G)).*1.

Definition successors (G : DiGraph) (n : string) : list string :=
  (filter (λ e, e.1 = n) (edges G)).*2.

(** The first result of [f] over [l] that is not [None]. *)
Fixpoint first_some {A B : Type} (f : A → option B) (l : list A) : option B :=
  match l with
  | [] => None
  | x :: l' => match f x with Some y => Some y | None => first_some f l' end
  end.

(** [cycle[i:]] for the first edge whose tail is the final node. *)
Fixpoint cut_cycle (final_node : string) (cycle : list (string * string))
    : list (string * string) :=
  match cycle with
  | [] => []
  | e :: cycle' =>
      if decide (e.1 = final_node) then cycle else cut_cycle final_node cycle'
  end.

(** The depth-first traversal of [find_cycle] from the node [u], reached
    through the edges [path] (last edge first).  The active nodes are [u]
    and the tails of [path]; the out-edges of a node are followed in the
    order of its adjacency, and the first edge whose head is active
    closes a cycle.  (networkx also remembers the nodes whose traversal
    met no cycle and does not enter them again; that saves work and
    changes no result.)  The depth never exceeds the number of nodes,
    which bounds the fuel. *)
Fixpoint edge_dfs (fuel : nat) (G : DiGraph) (path : list (string * string))
    (u : string) : option (list (string * string)) :=
  match fuel with
  | 0 => None
  | S fuel' =>
      first_some
        (λ v, if decide (v ∈ u :: path.*1)
              then Some (cut_cycle v (reverse ((u, v) :: path)))
              else edge_dfs fuel' G ((u, v) :: path) v)
        (successors G u)
  end.

(** [nx.algorithms.cycles.find_cycle(G)]: the start nodes are tried in
    the order of [G.nodes]; [NetworkXNoCycle] is raised when no
    traversal meets a cycle. *)
Definition find_cycle (G : DiGraph) : result (list (string * string)) :=
  match first_some (edge_dfs (S (length (nodes G))) G []) (names G) with
  | Some cycle => Return cycle
  | None => Raise NetworkXNoCycle
  end.

End nx.

(** The payloads of a graph node: ["task" in G.nodes[n]] and
    ["node" in G.nodes[n]]. *)
Definition has_task (G : nx.DiGraph) (n : string) : Prop :=
  is_Some (nx.getitem G n ≫= attr_task).

Definition has_node (G : nx.DiGraph) (n : string) : Prop :=
  is_Some (nx.getitem G n ≫= attr_node).

#[global] Instance has_task_dec G n : Decision (has_task G n).
Proof. unfold has_task. apply _. Defined.

#[global] Instance has_node_dec G n : Decision (has_node G n).
Proof. unfold has_node. apply _. Defined.

(** * pytask.dag *)

Module pytask_dag.

(** Modelled from the spec: [pytask.dag.node_and_neigbors] is not part of
    the sources; section 4.3 defines the neighbourhood of a task as the
    task itself, its predecessors and its successors (one hop). *)
Definition node_and_neigbors (dag : nx.DiGraph) (node : string) : list string :=
  node :: nx.predecessors dag node ++ nx.successors dag node.

(** A node is ready when all its predecessors have been emitted. *)
Definition ready (dag : nx.DiGraph) (emitted : list string) (v : string) : Prop :=
  Forall (λ p, p ∈ emitted) (nx.predecessors dag v).

#[global] Instance ready_dec dag emitted v : Decision (ready dag emitted v).
Proof. unfold ready. apply _. Defined.

(** Modelled from the spec: the topological order behind
    [pytask.dag.sort_tasks_topologically] is not part of the sources;
    section 4.3 asks for a valid linearization with ties broken by
    declaration order.  The first node in declaration order whose
    predecessors are all emitted comes next; when nodes remain and none
    is ready the graph has a cycle and there is no linearization. *)
Fixpoint topological_order (fuel : nat) (dag : nx.DiGraph)
    (remaining emitted : list string) : result (list string) :=
  match remaining with
  | [] => Return emitted
  | _ :: _ =>
      match fuel with
      | 0 => Raise NetworkXUnfeasible
      | S fuel' =>
          match list_find (ready dag emitted) remaining with
          | None => Raise NetworkXUnfeasible
          | Some (_, v) =>
              topological_order fuel' dag (filter (λ x, x ≠ v) remaining)
                (emitted ++ [v])
          end
      end
  end.

(** Modelled from the spec: [pytask.dag.sort_tasks_topologically] is not
    part of the sources; section 4.3 processes the task nodes in a
    topological order of the graph. *)
Definition sort_tasks_topologically (dag : nx.DiGraph) : result (list string) :=
  order ← topological_order (length (nx.nodes dag)) dag (nx.names dag) [];
  Return (filter (has_task dag) order).

(** The nodes reached from [u] by at least one and at most [fuel] edges. *)
Fixpoint descendants_upto (fuel : nat) (dag : nx.DiGraph) (u : string)
    : list string :=
  match fuel with
  | 0 => []
  | S fuel' =>
      nx.successors dag u
        ++ (nx.successors dag u ≫= descendants_upto fuel' dag)
  end.

(** Modelled from the spec: [pytask.dag.task_and_descending_tasks] is not
    part of the sources; section 4.3 defines the descendant tasks of a
    task as the task itself and every task node reachable from it by
    directed edges, data nodes in between included. *)
Definition task_and_descending_tasks (task_name : string) (dag : nx.DiGraph)
    : list string :=
  task_name
    :: filter (has_task dag)
         (descendants_upto (length (nx.nodes dag)) dag task_name).

End pytask_dag.

(** * pytask.resolve_dependencies *)

(** [pytask_resolve_dependencies_create_dag], the loop over the
    dependencies of a task. *)
Definition add_dependencies (task : Task.t) (dag : nx.DiGraph) : nx.DiGraph :=
  foldl (λ dag dependency,
           nx.add_edge (Node.name dependency) (Task.name task)
             (nx.add_node (Node.name dependency)
                (mkNodeDict None (Some dependency)) dag))
        dag (Task.depends_on task).

(** [pytask_resolve_dependencies_create_dag], the loop over the products
    of a task. *)
Definition add_products (task : Task.t) (dag : nx.DiGraph) : nx.DiGraph :=
  foldl (λ dag product,
           nx.add_edge (Task.name task) (Node.name product)
             (nx.add_node (Node.name product)
                (mkNodeDict None (Some product)) dag))
        dag (Task.produces task).

Definition add_task (dag : nx.DiGraph) (task : Task.t) : nx.DiGraph :=
  add_products task
    (add_dependencies task
       (nx.add_node (Task.name task) (mkNodeDict (Some task) None) dag)).

Definition pytask_resolve_dependencies_create_dag (tasks : list Task.t)
    : nx.DiGraph :=
  foldl add_task nx.empty tasks.

(** What [node_dict.get("task", None) or node_dict["node"]] evaluates to:
    tasks and data nodes both offer [name] and [state()]. *)
Inductive payload : Type :=
| PTask (task : Task.t)
| PNode (node : Node.t).

Definition payload_name (p : payload) : string :=
  match p with
  | PTask task => Task.name task
  | PNode node => Node.name node
  end.

Definition payload_state (p : payload) : result string :=
  match p with
  | PTask task => call_state (Task.state task)
  | PNode node => call_state (Node.state node)
  end.

Definition task_or_node (node_dict : NodeDict) : result payload :=
  match attr_task node_dict with
  | Some task => Return (PTask task)
  | None =>
      match attr_node node_dict with
      | Some node => Return (PNode node)
      | None => Raise (KeyError "node")
      end
  end.

Definition _has_node_changed (task_name : string) (node_dict : NodeDict)
    (State : Database) : result bool :=
  node ← task_or_node node_dict;
  match payload_state node with
  | Raise (NodeNotFoundError _) => Return true
  | Raise e => Raise e
  | Return state =>
      match State_getitem State task_name (payload_name node) with
      | Raise ObjectNotFound => Return true
      | Raise e => Raise e
      | Return state_in_db => Return (negb (bool_decide (state = state_in_db)))
      end
  end.

(** [any] over a generator: the items are evaluated in turn, up to the
    first that is true or that raises. *)
Fixpoint any (items : list (result bool)) : result bool :=
  match items with
  | [] => Return false
  | item :: items' =>
      match item with
      | Raise e => Raise e
      | Return true => Return true
      | Return false => any items'
      end
  end.

Definition _have_task_or_neighbors_changed (task_name : string)
    (dag : nx.DiGraph) (State : Database) : result bool :=
  any ((λ node,
          match nx.getitem dag node with
          | Some node_dict => _has_node_changed task_name node_dict State
          | None => Raise (KeyError node)
          end) <$> pytask_dag.node_and_neigbors dag task_name).

Definition skip_unchanged : Mark := mkMark "skip_unchanged" [] [].

(** [dag.nodes[task_name]["task"].markers.append(Mark("skip_unchanged", (), {}))]:
    the task object held by the graph is mutated in place. *)
Definition append_skip_unchanged (task_name : string) (dag : nx.DiGraph)
    : nx.DiGraph * result () :=
  match nx.getitem dag task_name with
  | None => (dag, Raise (KeyError task_name))
  | Some node_dict =>
      match attr_task node_dict with
      | None => (dag, Raise (KeyError "task"))
      | Some _ =>
          ({| nx.nodes :=
                nx.assoc_alter
                  (λ d, mkNodeDict
                          ((λ task, Task.append_marker task skip_unchanged)
                             <$> attr_task d)
                          (attr_node d))
                  task_name (nx.nodes dag);
              nx.edges := nx.edges dag |},
           Return ())
      end
  end.

(** The loop of [pytask_resolve_dependencies_select_execution_dag] over the
    sorted tasks.  The graph is threaded through because the markers are
    appended in place; it is returned also when an exception ends the
    loop, with the markers appended so far. *)
Fixpoint select_loop (State : Database) (tasks visited_nodes : list string)
    (dag : nx.DiGraph) : nx.DiGraph * result (list string) :=
  match tasks with
  | [] => (dag, Return visited_nodes)
  | task_name :: tasks' =>
      if decide (task_name ∈ visited_nodes)
      then select_loop State tasks' visited_nodes dag
      else
        match _have_task_or_neighbors_changed task_name dag State with
        | Raise e => (dag, Raise e)
        | Return true =>
            select_loop State tasks'
              (visited_nodes
                 ++ pytask_dag.task_and_descending_tasks task_name dag)
              dag
        | Return false =>
            match append_skip_unchanged task_name dag with
            | (dag', Raise e) => (dag', Raise e)
            | (dag', Return _) => select_loop State tasks' visited_nodes dag'
            end
        end
  end.

Definition pytask_resolve_dependencies_select_execution_dag
    (dag : nx.DiGraph) (State : Database) : nx.DiGraph * result () :=
  match pytask_dag.sort_tasks_topologically dag with
  | Raise e => (dag, Raise e)
  | Return tasks =>
      let '(dag', r) := select_loop State tasks [] dag in
      (dag', _ ← r; Return ())
  end.

Definition _check_if_dag_has_cycles (dag : nx.DiGraph) : result () :=
  match nx.find_cycle dag with
  | Raise NetworkXNoCycle => Return ()
  | Raise e => Raise e
  | Return cycles => Raise (ResolvingDependenciesError (Some cycles))
  end.

(** The loop of [_check_if_root_nodes_are_available] over [dag.nodes]. *)
Fixpoint root_nodes_loop (dag : nx.DiGraph) (nodes : list string) : result () :=
  match nodes with
  | [] => Return ()
  | node :: nodes' =>
      match nx.getitem dag node with
      | None => Raise (KeyError node)
      | Some node_dict =>
          let is_node := bool_decide (is_Some (attr_node node_dict)) in
          let is_without_parents :=
            bool_decide (length (nx.predecessors dag node) = 0) in
          if is_node && is_without_parents then
            match attr_node node_dict with
            | None => Raise (KeyError "node")
            | Some n =>
                match call_state (Node.state n) with
                | Raise (NodeNotFoundError _) =>
                    Raise (NodeNotFoundError
                             (Some (node, nx.successors dag node)))
                | Raise e => Raise e
                | Return _ => root_nodes_loop dag nodes'
                end
            end
          else root_nodes_loop dag nodes'
      end
  end.

Definition _check_if_root_nodes_are_available (dag : nx.DiGraph) : result () :=
  root_nodes_loop dag (nx.names dag).

Definition pytask_resolve_dependencies_validate_dag (dag : nx.DiGraph)
    : result () :=
  _ ← _check_if_dag_has_cycles dag;
  _check_if_root_nodes_are_available dag.

(** [ResolvingDependenciesReport(sys.exc_info())] *)
Record ResolvingDependenciesReport : Type := mkReport {
  exc_info : exn
}.

(** The session: the collected tasks, the graph once it is built, the
    report of a failed resolution and what [pytask_resolve_dependencies_log]
    has printed (one entry per report, its traceback between the banners).
    The graph holds the task objects themselves, and the resolution reads
    and marks them through the graph only: [tasks] keeps the declarations
    as they were collected, and the markers of a task are those of its
    node in [dag]. *)
Record Session : Type := mkSession {
  tasks : list Task.t;
  dag : option nx.DiGraph;
  resolving_dependencies_report : option ResolvingDependenciesReport;
  terminal : list ResolvingDependenciesReport
}.

Definition pytask_resolve_dependencies_log (session : Session)
    (report : ResolvingDependenciesReport) : Session :=
  {| tasks := tasks session;
     dag := dag session;
     resolving_dependencies_report := resolving_dependencies_report session;
     terminal := terminal session ++ [report] |}.

(** The [except Exception] branch of [pytask_resolve_dependencies]. *)
Definition resolution_failed (session : Session) (e : exn)
    : Session * result bool :=
  let report := mkReport e in
  let session := pytask_resolve_dependencies_log session report in
  ({| tasks := tasks session;
      dag := dag session;
      resolving_dependencies_report := Some report;
      terminal := terminal session |},
   Raise (ResolvingDependenciesError None)).

Definition set_dag (session : Session) (G : nx.DiGraph) : Session :=
  {| tasks := tasks session;
     dag := Some G;
     resolving_dependencies_report := resolving_dependencies_report session;
     terminal := terminal session |}.

(** [session.dag] is assigned as soon as the graph is built; the markers
    appended by the selection are seen through it, whether the selection
    returns or raises. *)
Definition pytask_resolve_dependencies (session : Session) (State : Database)
    : Session * result bool :=
  let G := pytask_resolve_dependencies_create_dag (tasks session) in
  let session := set_dag session G in
  match pytask_resolve_dependencies_validate_dag G with
  | Raise e => resolution_failed session e
  | Return _ =>
      match pytask_resolve_dependencies_select_execution_dag G State with
      | (G', Raise e) => resolution_failed (set_dag session G') e
      | (G', Return _) => (set_dag session G', Return true)
      end
  end.

(** * Vocabulary of the statements *)

(** The set of nodes and the set of edges of a graph. *)
Definition node_set (G : nx.DiGraph) : gset string :=
  list_to_set (nx.names G).

Definition edge_set (G : nx.DiGraph) : gset (string * string) :=
  list_to_set (nx.edges G).

(** The markers of the task held by the node [n]. *)
Definition markers_of (G : nx.DiGraph) (n : string) : list Mark :=
  default [] (Task.markers <$> (nx.getitem G n ≫= attr_task)).

(** The names a task declaration brings into the graph, and its edges. *)
Definition data_names (task : Task.t) : list string :=
  Node.name <$> (Task.depends_on task ++ Task.produces task).

Definition task_nodes (task : Task.t) : gset string :=
  {[ Task.name task ]} ∪ list_to_set (data_names task).

Definition task_edges (task : Task.t) : gset (string * string) :=
  list_to_set ((λ d, (Node.name d, Task.name task)) <$> Task.depends_on task)
  ∪ list_to_set ((λ p, (Task.name task, Node.name p)) <$> Task.produces task).

(** One dependency or product of the build: its node, then the edge
    [(u, v)], one end of which is the node and the other the task. *)
Definition add_data (u v : string) (node : Node.t) (G : nx.DiGraph) : nx.DiGraph :=
  nx.add_edge u v
    (nx.add_node (Node.name node) (mkNodeDict None (Some node)) G).

(** The same declaration up to the order of dependencies and products. *)
Definition same_declaration (t t' : Task.t) : Prop :=
  Task.name t = Task.name t'
  ∧ Task.depends_on t ≡ₚ Task.depends_on t'
  ∧ Task.produces t ≡ₚ Task.produces t'.

(** [path G u es v]: the edges [es] of [G], at least one, lead from [u] to
    [v], each starting where the previous one ends. *)
Inductive path (G : nx.DiGraph) : string → list (string * string) → string → Prop :=
| path_one u v :
    (u, v) ∈ nx.edges G → path G u [(u, v)] v
| path_cons u w v es :
    (u, w) ∈ nx.edges G → path G w es v → path G u ((u, w) :: es) v.

(** A closed path, and a graph with a directed cycle. *)
Definition closed_path (G : nx.DiGraph) (es : list (string * string)) : Prop :=
  ∃ u, path G u es u.

Definition has_cycle (G : nx.DiGraph) : Prop :=
  ∃ es, closed_path G es.

(** The invariant of [nx.DiGraph]: the ends of an edge are nodes. *)
Definition well_formed (G : nx.DiGraph) : Prop :=
  Forall (λ e, e.1 ∈ nx.names G ∧ e.2 ∈ nx.names G) (nx.edges G).

#[global] Instance well_formed_dec G : Decision (well_formed G).
Proof. unfold well_formed. apply _. Defined.

(** A root node of the graph: a node with a data payload and no incoming
    edge; [missing_root] when its state query reports that it does not
    exist. *)
Definition root_node (G : nx.DiGraph) (n : string) (payload : Node.t) : Prop :=
  n ∈ nx.names G
  ∧ nx.getitem G n ≫= attr_node = Some payload
  ∧ nx.predecessors G n = [].

Definition missing_root (G : nx.DiGraph) (n : string) : Prop :=
  ∃ payload, root_node G n payload ∧ Node.state payload = Missing.

(** No state query of a root node fails with a fault of its own. *)
Definition roots_without_fault (G : nx.DiGraph) : Prop :=
  ∀ n payload what, root_node G n payload → Node.state payload ≠ Fault what.

(** The node [n] of the neighbourhood of [task_name] is stable: its
    current state exists and is the state persisted for the task and the
    node. *)
Definition stable (G : nx.DiGraph) (State : Database) (task_name n : string) : Prop :=
  ∃ node_dict node state,
    nx.getitem G n = Some node_dict
    ∧ task_or_node node_dict = Return node
    ∧ payload_state node = Return state
    ∧ State !! (task_name, payload_name node) = Some state.

(** The stack of the traversal of [nx.edge_dfs]: the edges taken, last
    first, lead to the node visited. *)
Definition stack_ok (G : nx.DiGraph) (stack : list (string * string))
    (u : string) : Prop :=
  stack = [] ∨ ∃ s, path G s (reverse stack) u.

(** [linearized G l]: in [l], read from the node emitted last to the one
    emitted first, every node comes once and after all its predecessors. *)
Fixpoint linearized (G : nx.DiGraph) (l : list string) : Prop :=
  match l with
  | [] => True
  | v :: l' =>
      (∀ p, p ∈ nx.predecessors G v → p ∈ l') ∧ (v ∉ l') ∧ linearized G l'
  end.

(** The markers apart. *)
Definition unmark_task (task : Task.t) : Task.t :=
  Task.mk (Task.name task) (Task.depends_on task) (Task.produces task) []
    (Task.state task).

Definition unmark_dict (d : NodeDict) : NodeDict :=
  mkNodeDict (unmark_task <$> attr_task d) (attr_node d).

(** [G'] is [G] with other markers on its tasks. *)
Definition same_up_to_markers (G G' : nx.DiGraph) : Prop :=
  nx.edges G' = nx.edges G
  ∧ length (nx.nodes G') = length (nx.nodes G)
  ∧ ∀ n, unmark_dict <$> nx.getitem G' n = unmark_dict <$> nx.getitem G n.

(** Every node has a payload whose state query does not fail with a
    fault of its own. *)
Definition queries_answer (G : nx.DiGraph) : Prop :=
  ∀ n, n ∈ nx.names G →
       ∃ node_dict node,
         nx.getitem G n = Some node_dict
         ∧ task_or_node node_dict = Return node
         ∧ ∀ what, payload_state node ≠ Raise (OtherException what).

(** A task named like the product of another task. *)
Definition collision_tasks : list Task.t :=
  [ Task.mk "t1" [] [Node.mk "t2" (Exists "s")] [] (Exists "s1");
    Task.mk "t2" [] [] [] (Exists "s2") ].

(** A missing root beside a cycle. *)
Definition cycle_and_missing_root : nx.DiGraph :=
  pytask_resolve_dependencies_create_dag
    [ Task.mk "A" [Node.mk "Y" (Exists "y"); Node.mk "r" Missing]
        [Node.mk "X" (Exists "x")] [] (Exists "a");
      Task.mk "B" [Node.mk "X" (Exists "x")] [Node.mk "Y" (Exists "y")] []
        (Exists "b") ].

(** * Scenarios *)

(** Task A produces file1 and task B depends on it. *)
Definition file1 : Node.t := Node.mk "file1" (Exists "h1").
Definition task_A : Task.t := Task.mk "A" [] [file1] [] (Exists "sA").
Definition task_B : Task.t := Task.mk "B" [file1] [] [] (Exists "sB").
Definition pipeline : nx.DiGraph :=
  pytask_resolve_dependencies_create_dag [task_A; task_B].

(** Every state of the pipeline as persisted by the last run. *)
Definition persisted : Database :=
  list_to_map [ (("A", "A"), "sA"); (("A", "file1"), "h1");
                (("B", "B"), "sB"); (("B", "file1"), "h1") ].

(** The same, but task A was persisted in another state. *)
Definition persisted_before_A_changed : Database :=
  <[ ("A", "A") := "sA0" ]> persisted.

(** A depends on Y and produces X, B depends on X and produces Y. *)
Definition node_X : Node.t := Node.mk "X" (Exists "x").
Definition node_Y : Node.t := Node.mk "Y" (Exists "y").
Definition circular : nx.DiGraph :=
  pytask_resolve_dependencies_create_dag
    [ Task.mk "A" [node_Y] [node_X] [] (Exists "sA");
      Task.mk "B" [node_X] [node_Y] [] (Exists "sB") ].

(** A task that depends on a file nobody produces and that does not
    exist. *)
Definition needs_missing_file : nx.DiGraph :=
  pytask_resolve_dependencies_create_dag
    [ Task.mk "C" [Node.mk "r" Missing] [] [] (Exists "sC") ].

(** Task t1 produces the file f and is in its persisted state, as is f;
    task t2 depends on f, and its own state query fails with a fault. *)
Definition file_f : Node.t := Node.mk "f" (Exists "h").
Definition faulty_session : Session :=
  mkSession
    [ Task.mk "t1" [] [file_f] [] (Exists "s1");
      Task.mk "t2" [file_f] [] [] (Fault "PermissionError") ]
    None None [].

Definition faulty_State : Database :=
  list_to_map [ (("t1", "t1"), "s1"); (("t1", "f"), "h"); (("t2", "f"), "h") ].

(** Task t1 produces the file f, and its own state query fails with a
    fault; task t2 depends on f, and t2 and f are in the state persisted
    for t2. *)
Definition fault_upstream : nx.DiGraph :=
  pytask_resolve_dependencies_create_dag
    [ Task.mk "t1" [] [file_f] [] (Fault "PermissionError");
      Task.mk "t2" [file_f] [] [] (Exists "s2") ].

Definition fault_upstream_State : Database :=
  list_to_map [ (("t2", "t2"), "s2"); (("t2", "f"), "h") ].

(** A root whose state query fails with a fault, before a missing
    root. *)
Definition faulty_root_and_missing_root : nx.DiGraph :=
  pytask_resolve_dependencies_create_dag
    [ Task.mk "C" [Node.mk "q" (Fault "PermissionError"); Node.mk "r" Missing]
        [] [] (Exists "sC") ].

(** A task in its persisted state that depends on a file whose state
    query fails with a fault. *)
Definition faulty_dependency : nx.DiGraph :=
  pytask_resolve_dependencies_create_dag
    [ Task.mk "t" [Node.mk "d" (Fault "PermissionError")] [] [] (Exists "s") ].

Definition faulty_dependency_State : Database :=
  list_to_map [ (("t", "t"), "s") ].

(** * Vocabulary of the further properties *)

(** The pass of the selection appended its marker to the task [t]. *)
Definition marked (G : nx.DiGraph) (State : Database) (t : string) : Prop :=
  markers_of (pytask_resolve_dependencies_select_execution_dag G State).1 t
  = markers_of G t ++ [skip_unchanged].

(** The visited nodes are closed under reachability among tasks. *)
Definition visited_closed (G : nx.DiGraph) (visited : list string) : Prop :=
  ∀ x es d, x ∈ visited → path G x es d → has_task G d → d ∈ visited.

(** Two databases with the same records for the task [t] and the nodes of
    its neighbourhood. *)
Definition same_records (G : nx.DiGraph) (State State' : Database)
    (t : string) : Prop :=
  ∀ n node_dict node,
    n ∈ pytask_dag.node_and_neigbors G t →
    nx.getitem G n = Some node_dict →
    task_or_node node_dict = Return node →
    State !! (t, payload_name node) = State' !! (t, payload_name node).

(** [G.nodes[n]["task"]] and [G.nodes[n]["node"]], when present. *)
Definition task_of (G : nx.DiGraph) (n : string) : option Task.t :=
  nx.getitem G n ≫= attr_task.

Definition node_of (G : nx.DiGraph) (n : string) : option Node.t :=
  nx.getitem G n ≫= attr_node.

(** The dependencies and products of all tasks, in the order of the
    build. *)
Definition declared_nodes (tasks : list Task.t) : list Node.t :=
  tasks ≫= λ task, Task.depends_on task ++ Task.produces task.

(** [s * n] on strings. *)
Fixpoint str_mul (s : string) (n : nat) : string :=
  match n with
  | 0 => EmptyString
  | S n' => s +:+ str_mul s n'
  end.

(** ["{:=^width}".format(text)] on a string: the text centred in the
    width and filled with [=]; of the characters to fill, half (rounded
    down) go to the left and the rest to the right; a text as long as the
    width or longer is left as it is. *)
Definition format_centered (width : nat) (text : string) : string :=
  let fill := width - String.length text in
  let left := fill / 2 in
  str_mul "=" left +:+ text +:+ str_mul "=" (fill - left).

Definition errors_title : string := " Errors during resolving dependencies ".

(** What [pytask_resolve_dependencies_log] gives to [click.echo], in this
    order, for the terminal width of the configuration (a natural number):
    the title in its banner, an empty line and the closing rule.  The
    traceback of the report is printed by [traceback.print_exception]
    after the banner. *)
Definition pytask_resolve_dependencies_log_echo (tm_width : nat) : list string :=
  [ format_centered tm_width errors_title;
    EmptyString;
    str_mul "=" tm_width ].

(** * Proofs *)

(** * Graph operations *)

Section graph_operations.
Implicit Types (G : nx.DiGraph) (n m u v : string) (attr : NodeDict).

Lemma assoc_alter_names f n (l : list (string * NodeDict)) :
  (nx.assoc_alter f n l).*1 = l.*1.
Proof.
  induction l as [|[k d] l IH]; csimpl; [done|].
  case_decide; csimpl; by rewrite ?IH.
Qed.

Lemma assoc_alter_eq f n (l : list (string * NodeDict)) :
  nx.assoc n (nx.assoc_alter f n l) = f <$> nx.assoc n l.
Proof.
  induction l as [|[k d] l IH]; csimpl; [done|].
  case_decide; simpl; case_decide; try done.
Qed.

Lemma assoc_alter_ne f n m (l : list (string * NodeDict)) :
  m ≠ n → nx.assoc m (nx.assoc_alter f n l) = nx.assoc m l.
Proof.
  intros Hne. induction l as [|[k d] l IH]; csimpl; [done|].
  case_decide; simpl; case_decide; subst; try done.
Qed.

Lemma assoc_is_Some n (l : list (string * NodeDict)) :
  is_Some (nx.assoc n l) ↔ n ∈ l.*1.
Proof.
  induction l as [|[k d] l IH]; simpl.
  - split; [by intros [? ?]|by intros ?%elem_of_nil].
  - case_decide; subst.
    + split; [intros _; apply list_elem_of_here|by eauto].
    + rewrite IH, elem_of_cons. split; [by right|by intros [?|?]].
Qed.

Lemma assoc_snoc n m d (l : list (string * NodeDict)) :
  nx.assoc m (l ++ [(n, d)]) =
    match nx.assoc m l with
    | Some d' => Some d'
    | None => if decide (n = m) then Some d else None
    end.
Proof.
  induction l as [|[k d'] l IH]; simpl; [done|].
  destruct (decide (k = m)); [done|apply IH].
Qed.

Lemma getitem_is_Some G n : is_Some (nx.getitem G n) ↔ n ∈ nx.names G.
Proof. apply assoc_is_Some. Qed.

Lemma getitem_None G n : nx.getitem G n = None ↔ n ∉ nx.names G.
Proof. rewrite <-getitem_is_Some, eq_None_not_Some. done. Qed.

Lemma names_add_node n attr G :
  nx.names (nx.add_node n attr G) =
    if decide (n ∈ nx.names G) then nx.names G else nx.names G ++ [n].
Proof.
  unfold nx.add_node, nx.names. case_decide; simpl.
  - apply assoc_alter_names.
  - by rewrite fmap_app.
Qed.

Lemma edges_add_node n attr G :
  nx.edges (nx.add_node n attr G) = nx.edges G.
Proof. unfold nx.add_node. by case_decide. Qed.

Lemma getitem_add_node n attr G m :
  nx.getitem (nx.add_node n attr G) m =
    if decide (m = n)
    then Some (match nx.getitem G n with
               | Some d => dict_update d attr
               | None => attr
               end)
    else nx.getitem G m.
Proof.
  unfold nx.add_node, nx.getitem. case_decide as Hin; simpl.
  - apply assoc_is_Some in Hin as [d Hd]. destruct (decide (m = n)); subst.
    + by rewrite assoc_alter_eq, Hd.
    + by apply assoc_alter_ne.
  - assert (nx.assoc n (nx.nodes G) = None) as Hn.
    { apply eq_None_not_Some. by rewrite assoc_is_Some. }
    rewrite assoc_snoc. destruct (decide (m = n)); subst.
    + rewrite Hn. by rewrite decide_True.
    + rewrite decide_False by done. by destruct (nx.assoc m (nx.nodes G)).
Qed.

Lemma names_ensure_node n G :
  nx.names (nx.ensure_node n G) =
    if decide (n ∈ nx.names G) then nx.names G else nx.names G ++ [n].
Proof.
  unfold nx.ensure_node, nx.names. case_decide; simpl; [done|].
  by rewrite fmap_app.
Qed.

Lemma edges_ensure_node n G : nx.edges (nx.ensure_node n G) = nx.edges G.
Proof. unfold nx.ensure_node. by case_decide. Qed.

Lemma getitem_ensure_node n G m :
  nx.getitem (nx.ensure_node n G) m =
    match nx.getitem G m with
    | Some d => Some d
    | None => if decide (n = m) then Some (mkNodeDict None None) else None
    end.
Proof.
  unfold nx.ensure_node, nx.getitem. case_decide as Hin; simpl.
  - destruct (nx.assoc m (nx.nodes G)) eqn:Hm; [done|].
    rewrite decide_False; [done|]. intros ->.
    apply eq_None_not_Some in Hm. by rewrite assoc_is_Some in Hm.
  - apply assoc_snoc.
Qed.

Lemma names_add_edge u v G :
  nx.names (nx.add_edge u v G) = nx.names (nx.ensure_node v (nx.ensure_node u G)).
Proof. unfold nx.add_edge. simpl. by case_decide. Qed.

Lemma edges_add_edge u v G :
  nx.edges (nx.add_edge u v G) =
    if decide ((u, v) ∈ nx.edges G) then nx.edges G
    else nx.edges G ++ [(u, v)].
Proof.
  unfold nx.add_edge. simpl. rewrite !edges_ensure_node.
  case_decide; simpl; by rewrite ?edges_ensure_node.
Qed.

Lemma getitem_add_edge u v G m :
  nx.getitem (nx.add_edge u v G) m =
    nx.getitem (nx.ensure_node v (nx.ensure_node u G)) m.
Proof. unfold nx.add_edge. simpl. by case_decide. Qed.

Lemma node_set_ensure_node n G :
  node_set (nx.ensure_node n G) = {[ n ]} ∪ node_set G.
Proof.
  unfold node_set. rewrite names_ensure_node. case_decide.
  - set_solver.
  - rewrite list_to_set_app_L. set_solver.
Qed.

Lemma node_set_add_node n attr G :
  node_set (nx.add_node n attr G) = {[ n ]} ∪ node_set G.
Proof.
  unfold node_set. rewrite names_add_node. case_decide.
  - set_solver.
  - rewrite list_to_set_app_L. set_solver.
Qed.

Lemma node_set_add_edge u v G :
  node_set (nx.add_edge u v G) = {[ u; v ]} ∪ node_set G.
Proof.
  pose proof (node_set_ensure_node v (nx.ensure_node u G)) as Hv.
  pose proof (node_set_ensure_node u G) as Hu.
  unfold node_set in *. rewrite names_add_edge. set_solver.
Qed.

Lemma edge_set_add_node n attr G :
  edge_set (nx.add_node n attr G) = edge_set G.
Proof. unfold edge_set. by rewrite edges_add_node. Qed.

Lemma edge_set_add_edge u v G :
  edge_set (nx.add_edge u v G) = {[ (u, v) ]} ∪ edge_set G.
Proof.
  unfold edge_set. rewrite edges_add_edge. case_decide.
  - set_solver.
  - rewrite list_to_set_app_L. set_solver.
Qed.

End graph_operations.

(** * The graph built from the tasks *)

Section build.
Implicit Types (G : nx.DiGraph) (n m u v : string) (task : Task.t).

Lemma has_task_ensure_node n G m :
  has_task (nx.ensure_node n G) m ↔ has_task G m.
Proof.
  unfold has_task. rewrite getitem_ensure_node.
  destruct (nx.getitem G m); [done|]. case_decide; simpl; by rewrite !is_Some_alt.
Qed.

Lemma has_node_ensure_node n G m :
  has_node (nx.ensure_node n G) m ↔ has_node G m.
Proof.
  unfold has_node. rewrite getitem_ensure_node.
  destruct (nx.getitem G m); [done|]. case_decide; simpl; by rewrite !is_Some_alt.
Qed.

Lemma has_task_add_edge u v G m :
  has_task (nx.add_edge u v G) m ↔ has_task G m.
Proof.
  unfold has_task at 1. rewrite getitem_add_edge.
  fold (has_task (nx.ensure_node v (nx.ensure_node u G)) m).
  by rewrite !has_task_ensure_node.
Qed.

Lemma has_node_add_edge u v G m :
  has_node (nx.add_edge u v G) m ↔ has_node G m.
Proof.
  unfold has_node at 1. rewrite getitem_add_edge.
  fold (has_node (nx.ensure_node v (nx.ensure_node u G)) m).
  by rewrite !has_node_ensure_node.
Qed.

Lemma has_task_add_task_node n task G m :
  has_task (nx.add_node n (mkNodeDict (Some task) None) G) m
  ↔ m = n ∨ has_task G m.
Proof.
  unfold has_task. rewrite getitem_add_node.
  destruct (decide (m = n)) as [->|]; simpl.
  - destruct (nx.getitem G n); simpl; split; eauto.
  - split; [by right|by intros [?|?]].
Qed.

Lemma has_task_add_data_node n node G m :
  has_task (nx.add_node n (mkNodeDict None (Some node)) G) m ↔ has_task G m.
Proof.
  unfold has_task. rewrite getitem_add_node.
  destruct (decide (m = n)) as [->|]; simpl; [|done].
  destruct (nx.getitem G n); simpl; [done|]. by rewrite !is_Some_alt.
Qed.

Lemma has_node_add_task_node n task G m :
  has_node (nx.add_node n (mkNodeDict (Some task) None) G) m ↔ has_node G m.
Proof.
  unfold has_node. rewrite getitem_add_node.
  destruct (decide (m = n)) as [->|]; simpl; [|done].
  destruct (nx.getitem G n); simpl; [done|]. by rewrite !is_Some_alt.
Qed.

Lemma has_node_add_data_node n node G m :
  has_node (nx.add_node n (mkNodeDict None (Some node)) G) m
  ↔ m = n ∨ has_node G m.
Proof.
  unfold has_node. rewrite getitem_add_node.
  destruct (decide (m = n)) as [->|]; simpl.
  - destruct (nx.getitem G n); simpl; split; eauto.
  - split; [by right|by intros [?|?]].
Qed.

Lemma node_set_add_data u v node G :
  node_set (add_data u v node G) = {[ u; v; Node.name node ]} ∪ node_set G.
Proof.
  unfold add_data. rewrite node_set_add_edge, node_set_add_node. set_solver.
Qed.

Lemma edge_set_add_data u v node G :
  edge_set (add_data u v node G) = {[ (u, v) ]} ∪ edge_set G.
Proof.
  unfold add_data. by rewrite edge_set_add_edge, edge_set_add_node.
Qed.

Lemma node_set_add_dependencies task G :
  Task.name task ∈ node_set G →
  node_set (add_dependencies task G) =
    node_set G ∪ list_to_set (Node.name <$> Task.depends_on task).
Proof.
  unfold add_dependencies. generalize (Task.depends_on task) as l.
  intros l. revert G. induction l as [|d l IH]; intros G Hin; csimpl.
  - set_solver.
  - fold (add_data (Node.name d) (Task.name task) d G).
    rewrite IH; rewrite node_set_add_data; set_solver.
Qed.

Lemma node_set_add_products task G :
  Task.name task ∈ node_set G →
  node_set (add_products task G) =
    node_set G ∪ list_to_set (Node.name <$> Task.produces task).
Proof.
  unfold add_products. generalize (Task.produces task) as l.
  intros l. revert G. induction l as [|d l IH]; intros G Hin; csimpl.
  - set_solver.
  - fold (add_data (Task.name task) (Node.name d) d G).
    rewrite IH; rewrite node_set_add_data; set_solver.
Qed.

Lemma edge_set_add_dependencies task G :
  edge_set (add_dependencies task G) =
    edge_set G
    ∪ list_to_set ((λ d, (Node.name d, Task.name task)) <$> Task.depends_on task).
Proof.
  unfold add_dependencies. generalize (Task.depends_on task) as l.
  intros l. revert G. induction l as [|d l IH]; intros G; csimpl.
  - set_solver.
  - fold (add_data (Node.name d) (Task.name task) d G).
    rewrite IH, edge_set_add_data. set_solver.
Qed.

Lemma edge_set_add_products task G :
  edge_set (add_products task G) =
    edge_set G
    ∪ list_to_set ((λ p, (Task.name task, Node.name p)) <$> Task.produces task).
Proof.
  unfold add_products. generalize (Task.produces task) as l.
  intros l. revert G. induction l as [|d l IH]; intros G; csimpl.
  - set_solver.
  - fold (add_data (Task.name task) (Node.name d) d G).
    rewrite IH, edge_set_add_data. set_solver.
Qed.

Lemma node_set_add_task G task :
  node_set (add_task G task) = node_set G ∪ task_nodes task.
Proof.
  unfold add_task, task_nodes, data_names.
  rewrite node_set_add_products, node_set_add_dependencies.
  - rewrite node_set_add_node, fmap_app, list_to_set_app_L. set_solver.
  - rewrite node_set_add_node. set_solver.
  - rewrite node_set_add_dependencies; rewrite node_set_add_node; set_solver.
Qed.

Lemma edge_set_add_task G task :
  edge_set (add_task G task) = edge_set G ∪ task_edges task.
Proof.
  unfold add_task, task_edges.
  rewrite edge_set_add_products, edge_set_add_dependencies, edge_set_add_node.
  set_solver.
Qed.

Lemma node_set_foldl_add_task G (tasks : list Task.t) :
  node_set (foldl add_task G tasks) = node_set G ∪ ⋃ (task_nodes <$> tasks).
Proof.
  revert G. induction tasks as [|task tasks IH]; intros G; csimpl.
  - set_solver.
  - rewrite IH, node_set_add_task. set_solver.
Qed.

Lemma edge_set_foldl_add_task G (tasks : list Task.t) :
  edge_set (foldl add_task G tasks) = edge_set G ∪ ⋃ (task_edges <$> tasks).
Proof.
  revert G. induction tasks as [|task tasks IH]; intros G; csimpl.
  - set_solver.
  - rewrite IH, edge_set_add_task. set_solver.
Qed.

Lemma node_set_create_dag (tasks : list Task.t) :
  node_set (pytask_resolve_dependencies_create_dag tasks)
  = ⋃ (task_nodes <$> tasks).
Proof.
  unfold pytask_resolve_dependencies_create_dag.
  rewrite node_set_foldl_add_task. set_solver.
Qed.

Lemma edge_set_create_dag (tasks : list Task.t) :
  edge_set (pytask_resolve_dependencies_create_dag tasks)
  = ⋃ (task_edges <$> tasks).
Proof.
  unfold pytask_resolve_dependencies_create_dag.
  rewrite edge_set_foldl_add_task. set_solver.
Qed.

Lemma same_declaration_sets t t' :
  same_declaration t t' → task_nodes t = task_nodes t' ∧ task_edges t = task_edges t'.
Proof.
  intros (Hname & Hdeps & Hprods).
  unfold task_nodes, task_edges, data_names. rewrite Hname. split.
  - f_equal. apply list_to_set_perm_L. by rewrite Hdeps, Hprods.
  - f_equal; apply list_to_set_perm_L; by rewrite ?Hdeps, ?Hprods.
Qed.

Lemma same_declarations_sets (tasks tasks' : list Task.t) :
  Forall2 same_declaration tasks tasks' →
  task_nodes <$> tasks = task_nodes <$> tasks'
  ∧ task_edges <$> tasks = task_edges <$> tasks'.
Proof.
  induction 1 as [|t t' l l' Ht _ [IH1 IH2]]; csimpl; [done|].
  apply same_declaration_sets in Ht as [-> ->]. by rewrite IH1, IH2.
Qed.

End build.

Section build_payloads.
Implicit Types (G : nx.DiGraph) (n m u v : string) (task : Task.t).

Lemma well_formed_sets G :
  well_formed G ↔
  ∀ u v, (u, v) ∈ edge_set G → u ∈ node_set G ∧ v ∈ node_set G.
Proof.
  unfold well_formed, edge_set, node_set. rewrite Forall_forall. split.
  - intros H u v Huv. rewrite !elem_of_list_to_set in *. by apply (H (u, v)).
  - intros H [u v] Huv. simpl. rewrite <-!(elem_of_list_to_set (C:=gset string)).
    apply H. by rewrite elem_of_list_to_set.
Qed.

Lemma well_formed_create_dag (tasks : list Task.t) :
  well_formed (pytask_resolve_dependencies_create_dag tasks).
Proof.
  apply well_formed_sets. intros u v.
  rewrite edge_set_create_dag, node_set_create_dag, !elem_of_union_list.
  intros (E & HE & Huv). apply list_elem_of_fmap in HE as (task & -> & Htask).
  assert (u ∈ task_nodes task ∧ v ∈ task_nodes task) as [Hu Hv].
  { unfold task_edges, task_nodes, data_names in *.
    rewrite fmap_app, list_to_set_app_L.
    apply elem_of_union in Huv as [Huv|Huv];
      apply elem_of_list_to_set, list_elem_of_fmap in Huv as (d & [= -> ->] & Hd);
      split;
      rewrite !elem_of_union, elem_of_singleton, !elem_of_list_to_set,
        !list_elem_of_fmap; eauto 6. }
  split; exists (task_nodes task); split; try done;
    by apply list_elem_of_fmap_2.
Qed.

Lemma has_task_add_data u v node G m :
  has_task (add_data u v node G) m ↔ has_task G m.
Proof. unfold add_data. by rewrite has_task_add_edge, has_task_add_data_node. Qed.

Lemma has_node_add_data u v node G m :
  has_node (add_data u v node G) m ↔ m = Node.name node ∨ has_node G m.
Proof. unfold add_data. by rewrite has_node_add_edge, has_node_add_data_node. Qed.

Lemma has_task_add_dependencies task G m :
  has_task (add_dependencies task G) m ↔ has_task G m.
Proof.
  unfold add_dependencies. generalize (Task.depends_on task) as l.
  intros l. revert G. induction l as [|d l IH]; intros G; csimpl; [done|].
  fold (add_data (Node.name d) (Task.name task) d G).
  by rewrite IH, has_task_add_data.
Qed.

Lemma has_task_add_products task G m :
  has_task (add_products task G) m ↔ has_task G m.
Proof.
  unfold add_products. generalize (Task.produces task) as l.
  intros l. revert G. induction l as [|d l IH]; intros G; csimpl; [done|].
  fold (add_data (Task.name task) (Node.name d) d G).
  by rewrite IH, has_task_add_data.
Qed.

Lemma has_node_add_dependencies task G m :
  has_node (add_dependencies task G) m
  ↔ m ∈ Node.name <$> Task.depends_on task ∨ has_node G m.
Proof.
  unfold add_dependencies. generalize (Task.depends_on task) as l.
  intros l. revert G. induction l as [|d l IH]; intros G; csimpl.
  - rewrite elem_of_nil. tauto.
  - fold (add_data (Node.name d) (Task.name task) d G).
    rewrite IH, has_node_add_data, elem_of_cons. tauto.
Qed.

Lemma has_node_add_products task G m :
  has_node (add_products task G) m
  ↔ m ∈ Node.name <$> Task.produces task ∨ has_node G m.
Proof.
  unfold add_products. generalize (Task.produces task) as l.
  intros l. revert G. induction l as [|d l IH]; intros G; csimpl.
  - rewrite elem_of_nil. tauto.
  - fold (add_data (Task.name task) (Node.name d) d G).
    rewrite IH, has_node_add_data, elem_of_cons. tauto.
Qed.

Lemma has_task_add_task G task m :
  has_task (add_task G task) m ↔ m = Task.name task ∨ has_task G m.
Proof.
  unfold add_task.
  by rewrite has_task_add_products, has_task_add_dependencies,
    has_task_add_task_node.
Qed.

Lemma has_node_add_task G task m :
  has_node (add_task G task) m ↔ m ∈ data_names task ∨ has_node G m.
Proof.
  unfold add_task, data_names.
  rewrite has_node_add_products, has_node_add_dependencies,
    has_node_add_task_node, fmap_app, elem_of_app. tauto.
Qed.

Lemma has_task_foldl_add_task G (tasks : list Task.t) m :
  has_task (foldl add_task G tasks) m
  ↔ m ∈ Task.name <$> tasks ∨ has_task G m.
Proof.
  revert G. induction tasks as [|task tasks IH]; intros G; csimpl.
  - rewrite elem_of_nil. tauto.
  - rewrite IH, has_task_add_task, elem_of_cons. tauto.
Qed.

Lemma has_node_foldl_add_task G (tasks : list Task.t) m :
  has_node (foldl add_task G tasks) m
  ↔ m ∈ tasks ≫= data_names ∨ has_node G m.
Proof.
  revert G. induction tasks as [|task tasks IH]; intros G; csimpl.
  - rewrite elem_of_nil. tauto.
  - rewrite IH, has_node_add_task, elem_of_app. tauto.
Qed.

Lemma has_task_empty m : ¬ has_task nx.empty m.
Proof. by intros [? ?]. Qed.

Lemma has_node_empty m : ¬ has_node nx.empty m.
Proof. by intros [? ?]. Qed.

Lemma elem_of_union_task_nodes (tasks : list Task.t) m :
  m ∈ ⋃ (task_nodes <$> tasks)
  ↔ m ∈ Task.name <$> tasks ∨ m ∈ tasks ≫= data_names.
Proof.
  induction tasks as [|task tasks IH]; csimpl.
  - rewrite elem_of_nil. set_solver.
  - rewrite elem_of_union, IH, elem_of_cons, elem_of_app.
    unfold task_nodes. rewrite elem_of_union, elem_of_singleton,
      elem_of_list_to_set. tauto.
Qed.

End build_payloads.

Lemma add_edge_present u v G :
  (u, v) ∈ nx.edges G → u ∈ nx.names G → v ∈ nx.names G →
  nx.add_edge u v G = G.
Proof.
  intros Huv Hu Hv. unfold nx.add_edge, nx.ensure_node.
  rewrite (decide_True (P := u ∈ nx.names G)) by done.
  rewrite (decide_True (P := v ∈ nx.names G)) by done.
  by rewrite decide_True.
Qed.

(** C8. Adding a node that is present is not without effect: the
    attributes given replace those the node has.  On the graph of the
    task that needs a missing file, adding the node of the file again
    with a payload that exists changes the graph, and the validation,
    which failed, now returns. *)
Lemma add_node_present_replaces_payload :
  ¬ (∀ (tasks : list Task.t) (n : string) (attr : NodeDict),
       n ∈ nx.names (pytask_resolve_dependencies_create_dag tasks) →
       nx.add_node n attr (pytask_resolve_dependencies_create_dag tasks)
       = pytask_resolve_dependencies_create_dag tasks)
  ∧ ¬ (∀ (tasks : list Task.t) (n : string) (attr : NodeDict),
         n ∈ nx.names (pytask_resolve_dependencies_create_dag tasks) →
         pytask_resolve_dependencies_validate_dag
           (nx.add_node n attr (pytask_resolve_dependencies_create_dag tasks))
         = pytask_resolve_dependencies_validate_dag
             (pytask_resolve_dependencies_create_dag tasks)).
Proof.
  assert ("r" ∈ nx.names needs_missing_file) as Hin
    by (vm_compute; set_solver).
  split; intros H;
    specialize (H [Task.mk "C" [Node.mk "r" Missing] [] [] (Exists "sC")] "r"
                  (mkNodeDict None (Some (Node.mk "r" (Exists "h")))) Hin);
    vm_compute in H; discriminate H.
Qed.

(** C8, amended. The build is a total function (no step of it raises, so
    it has a graph for every list of declarations), and the set of nodes
    and the set of edges it yields depend neither on the order of the
    tasks nor on the order of the dependencies and products of a task, nor
    on a declaration being given twice.  An edge that is present is not
    inserted again: the graph stays as it is.  Adding a node that is
    present leaves the names of the nodes and the edges as they are and
    updates the attributes of that node with those given; the other nodes
    keep theirs. *)
Theorem create_dag_idempotent_order_independent
    (tasks tasks' tasks'' : list Task.t) :
  tasks ≡ₚ tasks' →
  Forall2 same_declaration tasks' tasks'' →
  let build := pytask_resolve_dependencies_create_dag in
  (node_set (build tasks'') = node_set (build tasks)
   ∧ edge_set (build tasks'') = edge_set (build tasks))
  ∧ (node_set (build (tasks ++ tasks)) = node_set (build tasks)
     ∧ edge_set (build (tasks ++ tasks)) = edge_set (build tasks))
  ∧ (∀ n attr, n ∈ nx.names (build tasks) →
       node_set (nx.add_node n attr (build tasks)) = node_set (build tasks)
       ∧ edge_set (nx.add_node n attr (build tasks)) = edge_set (build tasks)
       ∧ nx.names (nx.add_node n attr (build tasks)) = nx.names (build tasks)
       ∧ nx.edges (nx.add_node n attr (build tasks)) = nx.edges (build tasks)
       ∧ nx.getitem (nx.add_node n attr (build tasks)) n
         = (λ d, dict_update d attr) <$> nx.getitem (build tasks) n
       ∧ ∀ m, m ≠ n →
              nx.getitem (nx.add_node n attr (build tasks)) m
              = nx.getitem (build tasks) m)
  ∧ (∀ u v, (u, v) ∈ nx.edges (build tasks) →
       nx.add_edge u v (build tasks) = build tasks).
Proof.
  intros Hperm Hsame build. subst build.
  apply same_declarations_sets in Hsame as [Hn He].
  split; [split|split; [split|split]].
  - rewrite !node_set_create_dag, <-Hn.
    apply union_list_permutation_proper_L. by rewrite Hperm.
  - rewrite !edge_set_create_dag, <-He.
    apply union_list_permutation_proper_L. by rewrite Hperm.
  - rewrite !node_set_create_dag, fmap_app, union_list_app_L. set_solver.
  - rewrite !edge_set_create_dag, fmap_app, union_list_app_L. set_solver.
  - intros n attr Hin.
    split; [|split; [apply edge_set_add_node|split; [|split; [|split]]]].
    + rewrite node_set_add_node. unfold node_set.
      apply (elem_of_list_to_set (C:=gset string)) in Hin. set_solver.
    + by rewrite names_add_node, decide_True.
    + apply edges_add_node.
    + rewrite getitem_add_node, decide_True by done.
      destruct (proj2 (getitem_is_Some _ n) Hin) as [d ->]. done.
    + intros m Hne. by rewrite getitem_add_node, decide_False.
  - intros u v Huv.
    pose proof (well_formed_create_dag tasks) as Hwf.
    unfold well_formed in Hwf. rewrite Forall_forall in Hwf.
    destruct (Hwf _ Huv). by apply add_edge_present.
Qed.

(** C9. A task named like the product of another task: the node of that
    name carries both payloads. *)
Lemma create_dag_payloads_collide :
  ¬ (∀ (tasks : list Task.t) (n : string),
       let G := pytask_resolve_dependencies_create_dag tasks in
       n ∈ nx.names G →
       (has_task G n ∨ has_node G n) ∧ ¬ (has_task G n ∧ has_node G n)).
Proof.
  intros H. destruct (H collision_tasks "t2") as [_ Hboth].
  - vm_compute. set_solver.
  - apply Hboth. split; vm_compute; eauto.
Qed.

(** C9, amended. Every node of the built graph carries a task or a data
    node; it carries a task exactly when its name is the name of a task
    and a data node exactly when its name is the name of a dependency or
    of a product, hence both exactly when a task and a dependency or
    product share the name. *)
Theorem create_dag_payloads (tasks : list Task.t) (n : string) :
  let G := pytask_resolve_dependencies_create_dag tasks in
  (n ∈ nx.names G ↔ has_task G n ∨ has_node G n)
  ∧ (has_task G n ↔ n ∈ Task.name <$> tasks)
  ∧ (has_node G n ↔ n ∈ tasks ≫= data_names)
  ∧ (has_task G n ∧ has_node G n
     ↔ n ∈ Task.name <$> tasks ∧ n ∈ tasks ≫= data_names).
Proof.
  intros G.
  assert (has_task G n ↔ n ∈ Task.name <$> tasks) as Ht.
  { unfold G, pytask_resolve_dependencies_create_dag.
    rewrite has_task_foldl_add_task. pose proof (has_task_empty n). tauto. }
  assert (has_node G n ↔ n ∈ tasks ≫= data_names) as Hn.
  { unfold G, pytask_resolve_dependencies_create_dag.
    rewrite has_node_foldl_add_task. pose proof (has_node_empty n). tauto. }
  split; [|tauto].
  rewrite Ht, Hn, <-elem_of_union_task_nodes, <-node_set_create_dag.
  unfold node_set. by rewrite elem_of_list_to_set.
Qed.

(** C10. With a task in the attribute dictionary the data node is not
    looked at: the outcome is that of the task's state against the state
    persisted under the task's name, whatever the data node.  The data
    node decides only when there is no task. *)
Theorem has_node_changed_prefers_task
    (task_name : string) (task : Task.t) (node : Node.t)
    (other : option Node.t) (State : Database) :
  task_or_node (mkNodeDict (Some task) other) = Return (PTask task)
  ∧ _has_node_changed task_name (mkNodeDict (Some task) other) State
    = _has_node_changed task_name (mkNodeDict (Some task) None) State
  ∧ (∀ state,
       Task.state task = Exists state →
       _has_node_changed task_name (mkNodeDict (Some task) other) State
       = Return (bool_decide (State !! (task_name, Task.name task) ≠ Some state)))
  ∧ task_or_node (mkNodeDict None (Some node)) = Return (PNode node)
  ∧ (∀ state,
       Node.state node = Exists state →
       _has_node_changed task_name (mkNodeDict None (Some node)) State
       = Return (bool_decide (State !! (task_name, Node.name node) ≠ Some state))).
Proof.
  repeat split.
  - intros state Hstate. unfold _has_node_changed, State_getitem. simpl.
    rewrite Hstate. destruct (State !! _) as [s|]; simpl;
      f_equal; repeat case_bool_decide; simpl; congruence.
  - intros state Hstate. unfold _has_node_changed, State_getitem. simpl.
    rewrite Hstate. destruct (State !! _) as [s|]; simpl;
      f_equal; repeat case_bool_decide; simpl; congruence.
Qed.

(** * Paths and cycles *)

Section paths.
Context (G : nx.DiGraph).
Implicit Types (u v w s : string) (es : list (string * string)).

Lemma elem_of_successors u v : v ∈ nx.successors G u ↔ (u, v) ∈ nx.edges G.
Proof.
  unfold nx.successors. rewrite list_elem_of_fmap. split.
  - intros ([a b] & -> & [Ha Hin]%list_elem_of_filter). simpl in *. by subst.
  - intros Hin. exists (u, v). split; [done|]. by apply list_elem_of_filter.
Qed.

Lemma elem_of_predecessors u v : u ∈ nx.predecessors G v ↔ (u, v) ∈ nx.edges G.
Proof.
  unfold nx.predecessors. rewrite list_elem_of_fmap. split.
  - intros ([a b] & -> & [Ha Hin]%list_elem_of_filter). simpl in *. by subst.
  - intros Hin. exists (u, v). split; [done|]. by apply list_elem_of_filter.
Qed.

Lemma path_snoc s es u v :
  path G s es u → (u, v) ∈ nx.edges G → path G s (es ++ [(u, v)]) v.
Proof.
  induction 1 as [a b Hab|a b c es' Hab _ IH]; intros Huv; simpl.
  - apply path_cons; [done|]. by apply path_one.
  - apply path_cons; [done|]. by apply IH.
Qed.

Lemma path_app u es1 w es2 v :
  path G u es1 w → path G w es2 v → path G u (es1 ++ es2) v.
Proof.
  induction 1 as [a b Hab|a b c es' Hab _ IH]; intros H2; simpl.
  - by apply path_cons.
  - apply path_cons; [done|]. by apply IH.
Qed.

Lemma path_first_edge u es v :
  path G u es v → ∃ w, (u, w) ∈ nx.edges G.
Proof. destruct 1; eauto. Qed.

Lemma path_last_edge u es v :
  path G u es v → ∃ w, (w, v) ∈ nx.edges G.
Proof. induction 1; eauto. Qed.

(** A path read from its end: the last edge apart, it is a path or
    empty. *)
Lemma path_inv_snoc u es v :
  path G u es v →
  (u, v) ∈ nx.edges G ∧ es = [(u, v)]
  ∨ ∃ p es', path G u es' p ∧ (p, v) ∈ nx.edges G ∧ es = es' ++ [(p, v)].
Proof.
  induction 1 as [a b Hab|a b c es' Hab Hp IH]; [by left|right].
  destruct IH as [[Hbc ->]|(p & es'' & Hp' & Hpc & ->)].
  - exists b, [(a, b)]. split; [by apply path_one|done].
  - exists p, ((a, b) :: es''). split; [by apply path_cons|done].
Qed.

Lemma path_cut_cycle s es v w :
  path G s es v → w ∈ es.*1 → path G w (nx.cut_cycle w es) v.
Proof.
  induction 1 as [a b Hab|a b c es' Hab Hp IH]; csimpl; intros Hw.
  - apply list_elem_of_singleton in Hw as ->.
    rewrite decide_True by done. by apply path_one.
  - destruct (decide (a = w)) as [->|Hne].
    + by apply path_cons.
    + apply IH. apply elem_of_cons in Hw as [->|Hw]; done.
Qed.

Lemma first_some_Some {A B} (f : A → option B) (l : list A) y :
  nx.first_some f l = Some y → ∃ x, x ∈ l ∧ f x = Some y.
Proof.
  induction l as [|x l IH]; simpl; [done|].
  destruct (f x) as [y'|] eqn:Hfx.
  - intros [= ->]. exists x. split; [apply list_elem_of_here|done].
  - intros (x' & Hin & Hx')%IH. exists x'. split; [by apply list_elem_of_further|done].
Qed.

Lemma first_some_None {A B} (f : A → option B) (l : list A) :
  nx.first_some f l = None → ∀ x, x ∈ l → f x = None.
Proof.
  induction l as [|x l IH]; simpl; intros Hnone x' Hin.
  - by apply elem_of_nil in Hin.
  - destruct (f x) eqn:Hfx; [done|].
    apply elem_of_cons in Hin as [->|Hin]; [done|by apply IH].
Qed.

Lemma edge_dfs_sound fuel stack u cycle :
  stack_ok G stack u →
  nx.edge_dfs fuel G stack u = Some cycle →
  closed_path G cycle.
Proof.
  revert stack u. induction fuel as [|fuel IH]; intros stack u Hok; simpl; [done|].
  intros (v & Hv%elem_of_successors & Hf)%first_some_Some.
  assert (∃ s, path G s (reverse ((u, v) :: stack)) v) as [s Hpath].
  { rewrite reverse_cons. destruct Hok as [->|[s Hs]].
    - exists u. by apply path_one.
    - exists s. by apply path_snoc. }
  destruct (decide (v ∈ u :: stack.*1)) as [Hactive|Hactive].
  - injection Hf as <-. exists v. apply (path_cut_cycle s); [done|].
    rewrite reverse_cons, fmap_app, fmap_reverse. csimpl.
    apply elem_of_app. rewrite elem_of_reverse, list_elem_of_singleton.
    apply elem_of_cons in Hactive. tauto.
  - apply (IH ((u, v) :: stack) v); [|done]. right. eauto.
Qed.

Lemma find_cycle_sound cycle :
  nx.find_cycle G = Return cycle → closed_path G cycle.
Proof.
  unfold nx.find_cycle.
  destruct (nx.first_some _ _) as [c|] eqn:Hfirst; [|done].
  intros [= ->]. apply first_some_Some in Hfirst as (s & _ & Hs).
  eapply edge_dfs_sound; [|exact Hs]. by left.
Qed.

Lemma find_cycle_outcome :
  (∃ cycle, nx.find_cycle G = Return cycle)
  ∨ nx.find_cycle G = Raise NetworkXNoCycle.
Proof.
  unfold nx.find_cycle. destruct (nx.first_some _ _); eauto.
Qed.

Lemma edge_dfs_None fuel stack u :
  well_formed G →
  NoDup (u :: stack.*1) →
  (∀ x, x ∈ u :: stack.*1 → x ∈ nx.names G) →
  length (nx.names G) < fuel + length (u :: stack.*1) →
  nx.edge_dfs fuel G stack u = None →
  ∀ es w, path G u es w → w ∉ u :: stack.*1.
Proof.
  intros Hwf. unfold well_formed in Hwf. rewrite Forall_forall in Hwf.
  revert stack u. induction fuel as [|fuel IH]; intros stack u Hnd Hin Hlen.
  - apply NoDup_submseteq, submseteq_length in Hin; [|done]. lia.
  - simpl. intros Hnone es w Hpath.
    pose proof (first_some_None _ _ Hnone) as Hsucc. simpl in Hsucc.
    assert (∀ v, (u, v) ∈ nx.edges G →
              (v ∉ u :: stack.*1)
              ∧ nx.edge_dfs fuel G ((u, v) :: stack) v = None) as Hstep.
    { intros v Hv. specialize (Hsucc v (proj2 (elem_of_successors u v) Hv)).
      by destruct (decide (v ∈ u :: stack.*1)). }
    inversion Hpath as [a b Hab|a b c es' Hab Hrest]; subst.
    + by apply Hstep.
    + destruct (Hstep _ Hab) as [Hb Hdfs].
      assert (w ∉ b :: ((u, b) :: stack).*1) as Hw.
      { apply (λ H1 H2 H3, IH ((u, b) :: stack) b H1 H2 H3 Hdfs es' w Hrest);
          csimpl.
        - by apply NoDup_cons.
        - intros x [->|Hx]%elem_of_cons; [|by apply Hin].
          by destruct (Hwf _ Hab).
        - simpl in Hlen. lia. }
      csimpl in Hw. by apply not_elem_of_cons in Hw as [_ Hw].
Qed.

Lemma find_cycle_complete :
  well_formed G → nx.find_cycle G = Raise NetworkXNoCycle → ¬ has_cycle G.
Proof.
  intros Hwf Hfind (es & u & Hpath). unfold nx.find_cycle in Hfind.
  destruct (nx.first_some _ _) eqn:Hfirst; [done|].
  assert (u ∈ nx.names G) as Hu.
  { destruct (path_first_edge _ _ _ Hpath) as [w Hw].
    unfold well_formed in Hwf. rewrite Forall_forall in Hwf.
    by destruct (Hwf _ Hw). }
  pose proof (first_some_None _ _ Hfirst u Hu) as Hdfs.
  apply (edge_dfs_None _ [] u Hwf) with (es := es) (w := u) in Hdfs; csimpl.
  - apply Hdfs, list_elem_of_here.
  - apply NoDup_singleton.
  - by intros x ->%list_elem_of_singleton.
  - unfold nx.names. rewrite length_fmap. simpl. lia.
  - done.
Qed.

Lemma find_cycle_iff :
  well_formed G →
  (∃ cycle, nx.find_cycle G = Return cycle) ↔ has_cycle G.
Proof.
  intros Hwf. split.
  - intros [cycle Hc]. exists cycle. by apply find_cycle_sound.
  - intros Hcycle. destruct find_cycle_outcome as [?|Hnone]; [done|].
    by destruct (find_cycle_complete Hwf Hnone).
Qed.

End paths.

(** * Validation *)

Section validation.
Context (G : nx.DiGraph).
Implicit Types (n : string) (l : list string).

Lemma check_cycles_acyclic :
  ¬ has_cycle G → _check_if_dag_has_cycles G = Return ().
Proof.
  intros Hacyclic. unfold _check_if_dag_has_cycles.
  destruct (find_cycle_outcome G) as [[cycle Hc]|Hnone].
  - destruct Hacyclic. exists cycle. by apply find_cycle_sound.
  - by rewrite Hnone.
Qed.

Lemma check_cycles_outcome :
  (∃ cycle, nx.find_cycle G = Return cycle
            ∧ _check_if_dag_has_cycles G
              = Raise (ResolvingDependenciesError (Some cycle)))
  ∨ (nx.find_cycle G = Raise NetworkXNoCycle
     ∧ _check_if_dag_has_cycles G = Return ()).
Proof.
  unfold _check_if_dag_has_cycles.
  destruct (find_cycle_outcome G) as [[cycle Hc]|Hnone].
  - left. exists cycle. by rewrite Hc.
  - right. by rewrite Hnone.
Qed.

Lemma root_nodes_loop_not_cycle_error l cycles :
  root_nodes_loop G l ≠ Raise (ResolvingDependenciesError cycles).
Proof.
  induction l as [|n l IH]; simpl; [done|].
  destruct (nx.getitem G n) as [d|]; [|done].
  destruct (_ && _); [|done].
  destruct (attr_node d) as [p|]; [|done].
  by destruct (Node.state p).
Qed.

Lemma not_root_not_missing n d :
  nx.getitem G n = Some d →
  bool_decide (is_Some (attr_node d))
    && bool_decide (length (nx.predecessors G n) = 0) = false →
  ¬ missing_root G n.
Proof.
  intros Hd Hfalse (p & (_ & Hp & Hpreds) & _).
  rewrite Hd in Hp. simpl in Hp. rewrite Hp, Hpreds in Hfalse.
  rewrite bool_decide_eq_true_2 in Hfalse by eauto. done.
Qed.

Lemma root_nodes_loop_spec l :
  (∀ n, n ∈ l → n ∈ nx.names G) →
  roots_without_fault G →
  match root_nodes_loop G l with
  | Return _ => ∀ n, n ∈ l → ¬ missing_root G n
  | Raise e =>
      ∃ n, n ∈ l ∧ missing_root G n
           ∧ e = NodeNotFoundError (Some (n, nx.successors G n))
  end.
Proof.
  intros Hl Hfault. induction l as [|n l IH]; simpl.
  - by intros n ?%elem_of_nil.
  - assert (n ∈ nx.names G) as Hn by apply Hl, list_elem_of_here.
    assert (∀ m, m ∈ l → m ∈ nx.names G) as Hl'.
    { intros m Hm. by apply Hl, list_elem_of_further. }
    specialize (IH Hl').
    destruct (proj2 (getitem_is_Some G n) Hn) as [d Hd]. rewrite Hd.
    assert (¬ missing_root G n →
            match root_nodes_loop G l with
            | Return _ => ∀ m, m ∈ n :: l → ¬ missing_root G m
            | Raise e =>
                ∃ m, m ∈ n :: l ∧ missing_root G m
                     ∧ e = NodeNotFoundError (Some (m, nx.successors G m))
            end) as Hnext.
    { intros Hnot. destruct (root_nodes_loop G l) as [[]|e].
      - intros m [->|Hm]%elem_of_cons; [done|by apply IH].
      - destruct IH as (m & Hm & Hmiss & ->). exists m.
        split; [by apply list_elem_of_further|done]. }
    destruct (_ && _) eqn:Hroot;
      [|by apply Hnext, (not_root_not_missing n d)].
    apply andb_true_iff in Hroot as [[p Hp]%bool_decide_eq_true_1
                                       Hpreds%bool_decide_eq_true_1].
    apply nil_length_inv in Hpreds.
    assert (root_node G n p) as Hrootn.
    { split; [done|]. split; [|done]. by rewrite Hd. }
    rewrite Hp. destruct (Node.state p) as [s| |what] eqn:Hstate; simpl.
    + apply Hnext. intros (p' & (_ & Hp' & _) & Hmissing).
      rewrite Hd in Hp'. simpl in Hp'. congruence.
    + exists n. split; [apply list_elem_of_here|]. split; [|done]. by exists p.
    + by destruct (Hfault n p what).
Qed.

Lemma root_nodes_loop_returns l :
  root_nodes_loop G l = Return () →
  ∀ n payload, n ∈ l → root_node G n payload →
               ∃ state, Node.state payload = Exists state.
Proof.
  induction l as [|m l IH]; simpl; intros Hloop n p Hn Hroot.
  - by apply elem_of_nil in Hn.
  - destruct (nx.getitem G m) as [d|] eqn:Hd; [|done].
    apply elem_of_cons in Hn as [->|Hn].
    + destruct Hroot as (_ & Hp & Hpreds). rewrite Hd in Hp. simpl in Hp.
      rewrite Hp, Hpreds in Hloop. simpl in Hloop.
      destruct (Node.state p) as [s| |what]; [eauto|done|done].
    + destruct (_ && _); [|by eapply IH].
      destruct (attr_node d) as [p'|]; [|done].
      destruct (Node.state p') as [s| |what]; [by eapply IH|done|done].
Qed.

Lemma root_nodes_loop_first_missing l n successors :
  root_nodes_loop G l = Raise (NodeNotFoundError (Some (n, successors))) →
  ∃ before after,
    l = before ++ n :: after
    ∧ (∀ m payload, m ∈ before → root_node G m payload →
                    ∃ state, Node.state payload = Exists state)
    ∧ (∃ payload, nx.getitem G n ≫= attr_node = Some payload
                  ∧ nx.predecessors G n = []
                  ∧ Node.state payload = Missing)
    ∧ successors = nx.successors G n.
Proof.
  induction l as [|m l IH]; simpl; [done|]. intros Hloop.
  destruct (nx.getitem G m) as [d|] eqn:Hd; [|done].
  assert (root_nodes_loop G l
          = Raise (NodeNotFoundError (Some (n, successors))) →
          (∀ payload, root_node G m payload →
                      ∃ state, Node.state payload = Exists state) →
          ∃ before after,
            m :: l = before ++ n :: after
            ∧ (∀ m' payload, m' ∈ before → root_node G m' payload →
                             ∃ state, Node.state payload = Exists state)
            ∧ (∃ payload, nx.getitem G n ≫= attr_node = Some payload
                          ∧ nx.predecessors G n = []
                          ∧ Node.state payload = Missing)
            ∧ successors = nx.successors G n) as Hnext.
  { intros (before & after & -> & Hbefore & Hn & Hs)%IH Hm.
    exists (m :: before), after. split; [done|]. split; [|done].
    intros m' p [->|Hm']%elem_of_cons; [apply Hm|by apply Hbefore]. }
  destruct (_ && _) eqn:Hroot.
  - apply andb_true_iff in Hroot as [[p Hp]%bool_decide_eq_true_1
                                       Hpreds%bool_decide_eq_true_1].
    apply nil_length_inv in Hpreds. rewrite Hp in Hloop.
    destruct (Node.state p) as [s| |what] eqn:Hstate; simpl in Hloop.
    + apply Hnext; [done|]. intros p' (_ & Hp' & _).
      rewrite Hd in Hp'. simpl in Hp'. exists s. congruence.
    + injection Hloop as <- <-. exists [], l. split; [done|].
      split; [by intros ? ? ?%elem_of_nil|]. split; [|done].
      exists p. by rewrite Hd.
    + done.
  - apply Hnext; [done|]. intros p' (_ & Hp' & Hpreds).
    rewrite Hd in Hp'. simpl in Hp'. rewrite Hp', Hpreds in Hroot.
    rewrite bool_decide_eq_true_2 in Hroot by eauto. done.
Qed.

End validation.

(** C3. On a graph (the ends of whose edges are nodes, as in every
    [nx.DiGraph]) the validation raises the error of the cycle check
    exactly when the graph has a directed cycle; the cycle of the error is
    a closed path of the graph, each edge starting where the previous one
    ends and the last one ending where the first starts; on a graph
    without cycle the cycle check returns and does nothing. *)
Theorem validate_dag_cycle_soundness (G : nx.DiGraph) :
  well_formed G →
  ((∃ cycles, pytask_resolve_dependencies_validate_dag G
              = Raise (ResolvingDependenciesError (Some cycles)))
   ↔ has_cycle G)
  ∧ (∀ cycles, pytask_resolve_dependencies_validate_dag G
               = Raise (ResolvingDependenciesError (Some cycles)) →
               closed_path G cycles)
  ∧ (¬ has_cycle G → _check_if_dag_has_cycles G = Return ()).
Proof.
  intros Hwf.
  assert (∀ cycles, pytask_resolve_dependencies_validate_dag G
                    = Raise (ResolvingDependenciesError (Some cycles)) →
                    nx.find_cycle G = Return cycles) as Hfrom.
  { intros cycles. unfold pytask_resolve_dependencies_validate_dag.
    destruct (check_cycles_outcome G) as [(c & Hc & ->)|[_ ->]]; simpl.
    - by intros [= ->].
    - intros H. by apply root_nodes_loop_not_cycle_error in H. }
  split; [split|split].
  - intros [cycles Hc]. exists cycles. by apply find_cycle_sound, Hfrom.
  - intros [cycles Hc]%(find_cycle_iff G Hwf). exists cycles.
    unfold pytask_resolve_dependencies_validate_dag.
    destruct (check_cycles_outcome G) as [(c & Hc' & ->)|[Hnone _]]; simpl.
    + congruence.
    + congruence.
  - intros cycles Hc. by apply find_cycle_sound, Hfrom.
  - apply check_cycles_acyclic.
Qed.

Lemma cycle_and_missing_root_roots : roots_without_fault cycle_and_missing_root.
Proof.
  intros n p what (Hn & Hp & _) Hfault. vm_compute in Hn.
  repeat (apply elem_of_cons in Hn as [->|Hn];
          [vm_compute in Hp; try done; injection Hp as <-; done|]).
  by apply elem_of_nil in Hn.
Qed.

Lemma faulty_root_and_missing_root_acyclic :
  ¬ has_cycle faulty_root_and_missing_root.
Proof.
  apply find_cycle_complete; [apply well_formed_create_dag|]. by vm_compute.
Qed.

(** C4. A missing root is not always reported.  Beside a cycle: the cycle
    check comes first and its error is the one raised.  Behind a root
    whose state query fails with a fault of its own: the fault is not
    caught and is what the validation raises. *)
Lemma validate_dag_missing_root_not_reported :
  ¬ (∀ G : nx.DiGraph,
       well_formed G → roots_without_fault G →
       (∃ n successors,
          pytask_resolve_dependencies_validate_dag G
          = Raise (NodeNotFoundError (Some (n, successors))))
       ↔ (∃ n, missing_root G n))
  ∧ ¬ (∀ G : nx.DiGraph,
         well_formed G → ¬ has_cycle G →
         (∃ n successors,
            pytask_resolve_dependencies_validate_dag G
            = Raise (NodeNotFoundError (Some (n, successors))))
         ↔ (∃ n, missing_root G n)).
Proof.
  split; intros H.
  - destruct (H cycle_and_missing_root) as [_ Hraise].
    { apply well_formed_create_dag. }
    { apply cycle_and_missing_root_roots. }
    destruct Hraise as (n & successors & Hn); [|by vm_compute in Hn].
    exists "r", (Node.mk "r" Missing). split; [|done].
    split; [|by vm_compute]. vm_compute. set_solver.
  - destruct (H faulty_root_and_missing_root) as [_ Hraise].
    { apply well_formed_create_dag. }
    { apply faulty_root_and_missing_root_acyclic. }
    destruct Hraise as (n & successors & Hn); [|by vm_compute in Hn].
    exists "r", (Node.mk "r" Missing). split; [|done].
    split; [|by vm_compute]. vm_compute. set_solver.
Qed.

(** C4, amended. On a graph with a directed cycle the cycle check comes
    first and its error is the one the validation raises, whatever the
    roots.  On a graph without cycle, and when no state query of a root
    node fails with a fault of its own, the validation raises the error of
    the missing root exactly when some node with a data payload and no
    incoming edge reports that it does not exist; the error names the
    first such node in the order of the nodes, with the list of its direct
    successors, and when no root is missing the validation returns.  On
    every graph, a root that exists is never the node the error names. *)
Theorem validate_dag_root_completeness (G : nx.DiGraph) :
  (well_formed G → has_cycle G →
   ∃ cycles, pytask_resolve_dependencies_validate_dag G
             = Raise (ResolvingDependenciesError (Some cycles)))
  ∧ (¬ has_cycle G → roots_without_fault G →
     ((∃ n successors,
         pytask_resolve_dependencies_validate_dag G
         = Raise (NodeNotFoundError (Some (n, successors))))
      ↔ (∃ n, missing_root G n))
     ∧ (∀ n successors,
          pytask_resolve_dependencies_validate_dag G
          = Raise (NodeNotFoundError (Some (n, successors))) →
          missing_root G n
          ∧ successors = nx.successors G n
          ∧ ∃ before after,
              nx.names G = before ++ n :: after
              ∧ ∀ m, m ∈ before → ¬ missing_root G m)
     ∧ ((∀ n, ¬ missing_root G n) →
        pytask_resolve_dependencies_validate_dag G = Return ()))
  ∧ (∀ n payload state successors,
       root_node G n payload → Node.state payload = Exists state →
       pytask_resolve_dependencies_validate_dag G
       ≠ Raise (NodeNotFoundError (Some (n, successors)))).
Proof.
  assert (∀ n successors,
            pytask_resolve_dependencies_validate_dag G
            = Raise (NodeNotFoundError (Some (n, successors))) →
            missing_root G n
            ∧ successors = nx.successors G n
            ∧ ∃ before after,
                nx.names G = before ++ n :: after
                ∧ ∀ m, m ∈ before → ¬ missing_root G m) as Hnamed.
  { intros n successors. unfold pytask_resolve_dependencies_validate_dag.
    destruct (check_cycles_outcome G) as [(c & _ & ->)|[_ ->]]; simpl;
      [done|].
    unfold _check_if_root_nodes_are_available.
    intros (before & after & Hnames & Hbefore & (p & Hp & Hpreds & Hstate)
            & Hsucc)%root_nodes_loop_first_missing.
    split; [|split; [done|]].
    - exists p. split; [|done]. split; [|done].
      rewrite Hnames. apply elem_of_app. right. apply list_elem_of_here.
    - exists before, after. split; [done|].
      intros m Hm (p' & Hroot & Hmissing).
      destruct (Hbefore m p' Hm Hroot) as [state Hstate']. congruence. }
  split; [|split].
  - intros Hwf [cycles Hc]%(find_cycle_iff G Hwf). exists cycles.
    unfold pytask_resolve_dependencies_validate_dag.
    destruct (check_cycles_outcome G) as [(c & Hc' & ->)|[Hnone _]]; simpl;
      congruence.
  - intros Hacyclic Hfault. split; [|split; [done|]].
    + split.
      * intros (n & successors & Hraise). exists n.
        by destruct (Hnamed n successors Hraise).
      * intros [n Hn]. unfold pytask_resolve_dependencies_validate_dag.
        rewrite (check_cycles_acyclic G Hacyclic). simpl.
        unfold _check_if_root_nodes_are_available.
        pose proof (root_nodes_loop_spec G (nx.names G) (λ n H, H) Hfault)
          as Hspec.
        destruct (root_nodes_loop G (nx.names G)) as [[]|e].
        -- destruct (Hspec n); [|done]. by destruct Hn as (p & (? & _) & _).
        -- destruct Hspec as (m & _ & _ & ->). eauto.
    + intros Hnone. unfold pytask_resolve_dependencies_validate_dag.
      rewrite (check_cycles_acyclic G Hacyclic). simpl.
      unfold _check_if_root_nodes_are_available.
      pose proof (root_nodes_loop_spec G (nx.names G) (λ n H, H) Hfault)
        as Hspec.
      destruct (root_nodes_loop G (nx.names G)) as [[]|e]; [done|].
      destruct Hspec as (m & _ & Hm & _). by destruct (Hnone m).
  - intros n payload state successors (_ & Hp & _) Hstate Hraise.
    destruct (Hnamed n successors Hraise) as [(p & (_ & Hp' & _) & Hmissing) _].
    congruence.
Qed.

(** * Selection: what the loop changes *)

Section selection_frame.
Context (State : Database).
Implicit Types (G : nx.DiGraph) (n x : string) (visited : list string).

Lemma append_skip_unchanged_markers task_name G G' r x :
  append_skip_unchanged task_name G = (G', r) →
  x ≠ task_name → markers_of G' x = markers_of G x.
Proof.
  unfold append_skip_unchanged, markers_of. intros Happend Hne.
  destruct (nx.getitem G task_name) as [d|]; [|by injection Happend as <- _].
  destruct (attr_task d); [|by injection Happend as <- _].
  injection Happend as <- _. unfold nx.getitem. simpl.
  by rewrite assoc_alter_ne.
Qed.

Lemma append_skip_unchanged_appends task_name G G' :
  append_skip_unchanged task_name G = (G', Return ()) →
  markers_of G' task_name = markers_of G task_name ++ [skip_unchanged].
Proof.
  unfold append_skip_unchanged, markers_of. intros Happend.
  destruct (nx.getitem G task_name) as [d|] eqn:Hd; [|done].
  destruct (attr_task d) as [task|] eqn:Htask; [|done].
  injection Happend as <-. unfold nx.getitem in *. simpl.
  rewrite assoc_alter_eq, Hd. simpl. by rewrite Htask.
Qed.

Lemma append_skip_unchanged_is_task task_name G :
  has_task G task_name →
  ∃ G', append_skip_unchanged task_name G = (G', Return ()).
Proof.
  unfold has_task, append_skip_unchanged. intros [task Htask].
  destruct (nx.getitem G task_name) as [d|]; [|done]. simpl in Htask.
  rewrite Htask. eauto.
Qed.

(** A task that is not among those processed keeps its markers. *)
Lemma select_loop_frame tasks visited G x :
  x ∉ tasks →
  markers_of (select_loop State tasks visited G).1 x = markers_of G x.
Proof.
  revert visited G. induction tasks as [|t tasks IH]; intros visited G Hx;
    simpl; [done|].
  apply not_elem_of_cons in Hx as [Hne Hx].
  destruct (decide (t ∈ visited)); [by apply IH|].
  destruct (_have_task_or_neighbors_changed t G State) as [[]|e];
    [by apply IH| |done].
  destruct (append_skip_unchanged t G) as [G' [[]|e]] eqn:Happend; simpl.
  - rewrite IH by done. by eapply append_skip_unchanged_markers.
  - by eapply append_skip_unchanged_markers.
Qed.

(** A task that is visited keeps its markers, whatever is processed. *)
Lemma select_loop_visited tasks visited G x :
  x ∈ visited →
  markers_of (select_loop State tasks visited G).1 x = markers_of G x.
Proof.
  revert visited G. induction tasks as [|t tasks IH]; intros visited G Hx;
    simpl; [done|].
  destruct (decide (t ∈ visited)) as [Ht|Ht]; [by apply IH|].
  destruct (_have_task_or_neighbors_changed t G State) as [[]|e]; [| |done].
  { apply IH, elem_of_app. by left. }
  assert (x ≠ t) as Hne by (by intros ->).
  destruct (append_skip_unchanged t G) as [G' [[]|e]] eqn:Happend; simpl.
  - rewrite IH by done. by eapply append_skip_unchanged_markers.
  - by eapply append_skip_unchanged_markers.
Qed.

Lemma select_loop_app tasks1 tasks2 visited G :
  select_loop State (tasks1 ++ tasks2) visited G =
    match select_loop State tasks1 visited G with
    | (G1, Return visited1) => select_loop State tasks2 visited1 G1
    | (G1, Raise e) => (G1, Raise e)
    end.
Proof.
  revert visited G. induction tasks1 as [|t tasks1 IH]; intros visited G;
    simpl; [done|].
  destruct (decide (t ∈ visited)); [by apply IH|].
  destruct (_have_task_or_neighbors_changed t G State) as [[]|e];
    [by apply IH| |done].
  destruct (append_skip_unchanged t G) as [G' [[]|e]]; [by apply IH|done].
Qed.

End selection_frame.

(** * Selection with an empty database *)

Section first_run.
Implicit Types (G : nx.DiGraph).




End first_run.


(** * The topological order *)

Section topological_order.
Context (G : nx.DiGraph).
Implicit Types (u v d : string) (l order remaining emitted : list string).

Lemma linearized_NoDup l : linearized G l → NoDup l.
Proof.
  induction l as [|v l IH]; simpl; [intros _; apply NoDup_nil_2|].
  intros (_ & Hv & Hl). apply NoDup_cons_2; [done|by apply IH].
Qed.

Lemma linearized_suffix l1 l2 : linearized G (l1 ++ l2) → linearized G l2.
Proof. induction l1 as [|v l1 IH]; simpl; [done|]. intros (_ & _ & H). by apply IH. Qed.

(** The source of a path to [d] is emitted before [d], and the path is
    no longer than what is emitted before [d]. *)
Lemma linearized_path l d es u :
  linearized G (d :: l) → path G u es d → u ∈ l ∧ length es ≤ length l.
Proof.
  remember (length es) as k eqn:Hk. revert l d es u Hk.
  induction k as [k IH] using lt_wf_ind. intros l d es u -> Hlin Hpath.
  destruct Hlin as (Hpreds & _ & Hl).
  apply path_inv_snoc in Hpath
    as [[Hud ->]|(p & es' & Hpath' & Hpd & ->)].
  - apply elem_of_predecessors, Hpreds in Hud. split; [done|].
    destruct l; [by apply elem_of_nil in Hud|simpl; lia].
  - apply elem_of_predecessors, Hpreds in Hpd.
    apply list_elem_of_split in Hpd as (l1 & l2 & ->).
    apply linearized_suffix in Hl.
    destruct (IH (length es') ltac:(rewrite length_app; simpl; lia)
                l2 p es' u eq_refl Hl Hpath') as [Hu Hlen].
    split.
    + apply elem_of_app. right. by apply list_elem_of_further.
    + rewrite !length_app. simpl. lia.
Qed.

Lemma topological_order_spec fuel remaining emitted order :
  linearized G (reverse emitted) →
  (∀ x, x ∈ remaining → x ∉ emitted) →
  pytask_dag.topological_order fuel G remaining emitted = Return order →
  linearized G (reverse order)
  ∧ (∀ x, x ∈ order ↔ x ∈ emitted ∨ x ∈ remaining).
Proof.
  revert remaining emitted.
  induction fuel as [|fuel IH]; intros remaining emitted Hlin Hdisj;
    destruct remaining as [|r remaining];
    cbn [pytask_dag.topological_order]; try done.
  - intros [= <-]. split; [done|]. intros x. rewrite elem_of_nil. tauto.
  - intros [= <-]. split; [done|]. intros x. rewrite elem_of_nil. tauto.
  - destruct (list_find _ _) as [[i v]|] eqn:Hfind; [|done].
    apply list_find_Some in Hfind as (Hi & Hready & _).
    apply list_elem_of_lookup_2 in Hi. intros Horder.
    apply IH in Horder as [Hlin' Hmem].
    + split; [done|]. intros x. rewrite Hmem, list_elem_of_filter,
        elem_of_app, list_elem_of_singleton.
      destruct (decide (x = v)) as [->|]; tauto.
    + rewrite reverse_snoc. simpl. split; [|split; [|done]].
      * intros p Hp. apply elem_of_reverse.
        unfold pytask_dag.ready in Hready. rewrite Forall_forall in Hready.
        by apply Hready.
      * rewrite elem_of_reverse. by apply Hdisj.
    + intros x [Hne Hx]%list_elem_of_filter.
      rewrite elem_of_app, list_elem_of_singleton.
      intros [?|?]; [by apply (Hdisj x)|done].
Qed.

Lemma sort_linearized order :
  pytask_dag.topological_order (length (nx.nodes G)) G (nx.names G) []
  = Return order →
  linearized G (reverse order) ∧ (∀ x, x ∈ order ↔ x ∈ nx.names G).
Proof.
  intros Horder. apply topological_order_spec in Horder as [Hlin Hmem].
  - split; [done|]. intros x. rewrite Hmem, elem_of_nil. tauto.
  - done.
  - intros x _. apply not_elem_of_nil.
Qed.

End topological_order.

Section acyclic.
Context (G : nx.DiGraph).
Implicit Types (u v d : string) (es : list (string * string)).

Lemma not_NoDup_split (l : list string) :
  ¬ NoDup l → ∃ a l1 l2 l3, l = l1 ++ a :: l2 ++ a :: l3.
Proof.
  induction l as [|x l IH]; intros Hdup.
  - destruct Hdup. apply NoDup_nil_2.
  - destruct (decide (x ∈ l)) as [Hin|Hnotin].
    + apply list_elem_of_split in Hin as (l2 & l3 & ->).
      by exists x, [], l2, l3.
    + destruct IH as (a & l1 & l2 & l3 & ->).
      { intros Hl. apply Hdup. by apply NoDup_cons_2. }
      by exists a, (x :: l1), l2, l3.
Qed.

Lemma path_suffix u es1 e es2 v :
  path G u (es1 ++ e :: es2) v → path G e.1 (e :: es2) v.
Proof.
  revert u. induction es1 as [|e1 es1 IH]; intros u Hpath; simpl in *.
  - inversion Hpath; subst; simpl; done.
  - inversion Hpath as [|a b c es' Hab Hrest]; subst.
    + by destruct es1.
    + by apply (IH b).
Qed.

Lemma path_prefix u e1 es1 e es2 v :
  path G u (e1 :: es1 ++ e :: es2) v → path G u (e1 :: es1) e.1.
Proof.
  revert u e1. induction es1 as [|e' es1 IH]; intros u e1 Hpath; simpl in *.
  - inversion Hpath as [|a b c es' Hab Hrest]; subst.
    inversion Hrest; subst; simpl; by apply path_one.
  - inversion Hpath as [|a b c es' Hab Hrest]; subst.
    apply path_cons; [done|]. apply IH.
    assert (b = e'.1) as ->; [|done].
    inversion Hrest; by subst.
Qed.

(** A path that leaves a node twice goes round a cycle. *)
Lemma path_repeated_tail u es v :
  path G u es v → ¬ NoDup es.*1 → has_cycle G.
Proof.
  intros Hpath (a & l1 & l2 & l3 & Hsplit)%not_NoDup_split.
  apply fmap_app_inv in Hsplit as (es1 & es' & -> & Hes' & ->).
  symmetry in Hes'. apply fmap_cons_inv in Hes' as (e & es'' & -> & Hes'' & ->).
  symmetry in Hes''.
  apply fmap_app_inv in Hes'' as (es2 & es''' & -> & Hes''' & ->).
  symmetry in Hes'''.
  apply fmap_cons_inv in Hes''' as (e' & es3 & He' & -> & ->).
  apply path_suffix, path_prefix in Hpath. rewrite <-He' in Hpath.
  exists (e :: es2), e.1. done.
Qed.

Lemma path_tails_nodes u es v :
  well_formed G → path G u es v → ∀ x, x ∈ es.*1 → x ∈ nx.names G.
Proof.
  intros Hwf. unfold well_formed in Hwf. rewrite Forall_forall in Hwf.
  induction 1 as [a b Hab|a b c es' Hab _ IH]; csimpl; intros x Hx.
  - apply list_elem_of_singleton in Hx as ->. by destruct (Hwf _ Hab).
  - apply elem_of_cons in Hx as [->|Hx]; [|by apply IH].
    by destruct (Hwf _ Hab).
Qed.

(** Without cycle no path is longer than the number of nodes. *)
Lemma path_length_acyclic u es v :
  well_formed G → ¬ has_cycle G → path G u es v →
  length es ≤ length (nx.nodes G).
Proof.
  intros Hwf Hacyclic Hpath.
  destruct (decide (NoDup es.*1)) as [Hnd|Hdup].
  - pose proof (path_tails_nodes _ _ _ Hwf Hpath) as Hin.
    apply NoDup_submseteq, submseteq_length in Hin; [|done].
    unfold nx.names in Hin. by rewrite !length_fmap in Hin.
  - destruct Hacyclic. by eapply path_repeated_tail.
Qed.

(** When every node of [R] has a predecessor in [R], paths of every
    length end in [R]. *)
Lemma backward_paths (R : list string) :
  (∀ v, v ∈ R → ∃ p, (p, v) ∈ nx.edges G ∧ p ∈ R) →
  ∀ k v, v ∈ R → ∃ u es, path G u es v ∧ length es = S k.
Proof.
  intros Hpred k. induction k as [|k IH]; intros v Hv.
  - destruct (Hpred v Hv) as (p & Hp & _). exists p, [(p, v)].
    split; [by apply path_one|done].
  - destruct (Hpred v Hv) as (p & Hp & HpR).
    destruct (IH p HpR) as (u & es & Hpath & Hlen).
    exists u, (es ++ [(p, v)]). split; [by apply path_snoc|].
    rewrite length_app. simpl. lia.
Qed.

Lemma ready_exists remaining emitted :
  well_formed G → ¬ has_cycle G →
  (∀ n, n ∈ nx.names G → n ∈ emitted ∨ n ∈ remaining) →
  remaining ≠ [] →
  ∃ i v, list_find (pytask_dag.ready G emitted) remaining = Some (i, v).
Proof.
  intros Hwf Hacyclic Hcover Hne.
  destruct (list_find _ _) as [[i v]|] eqn:Hfind; [eauto|exfalso].
  apply list_find_None in Hfind. rewrite Forall_forall in Hfind.
  assert (∀ v, v ∈ remaining →
            ∃ p, (p, v) ∈ nx.edges G ∧ p ∈ remaining) as Hpred.
  { intros v Hv. specialize (Hfind v Hv). unfold pytask_dag.ready in Hfind.
    apply not_Forall_Exists in Hfind; [|apply _].
    apply Exists_exists in Hfind as (p & Hp & Hnot).
    apply elem_of_predecessors in Hp. exists p. split; [done|].
    unfold well_formed in Hwf. rewrite Forall_forall in Hwf.
    destruct (Hwf _ Hp) as [Hpn _]. simpl in *.
    by destruct (Hcover p Hpn). }
  destruct remaining as [|r remaining]; [done|].
  destruct (backward_paths _ Hpred (length (nx.nodes G)) r)
    as (u & es & Hpath & Hlen); [apply list_elem_of_here|].
  apply (path_length_acyclic _ _ _ Hwf Hacyclic) in Hpath. lia.
Qed.

Lemma topological_order_total fuel remaining emitted :
  well_formed G → ¬ has_cycle G →
  length remaining ≤ fuel →
  (∀ n, n ∈ nx.names G → n ∈ emitted ∨ n ∈ remaining) →
  ∃ order, pytask_dag.topological_order fuel G remaining emitted = Return order.
Proof.
  intros Hwf Hacyclic. revert remaining emitted.
  induction fuel as [|fuel IH]; intros remaining emitted Hlen Hcover;
    destruct remaining as [|r remaining];
    cbn [pytask_dag.topological_order]; eauto.
  - simpl in Hlen. lia.
  - destruct (ready_exists (r :: remaining) emitted Hwf Hacyclic Hcover)
      as (i & v & Hfind); [done|].
    rewrite Hfind. apply list_find_Some in Hfind as (Hi & _ & _).
    apply list_elem_of_lookup_2 in Hi. apply IH.
    + pose proof (length_filter_lt (λ x, x ≠ v) (r :: remaining) v Hi) as Hlt.
      simpl in Hlen. specialize (Hlt ltac:(by intros ?)). simpl in Hlt. lia.
    + intros n Hn. rewrite elem_of_app, list_elem_of_singleton,
        list_elem_of_filter.
      destruct (decide (n = v)) as [->|]; [tauto|].
      destruct (Hcover n Hn); tauto.
Qed.

(** On a graph without cycle the sort returns, with every task once. *)
Lemma sort_tasks_topologically_total :
  well_formed G → ¬ has_cycle G →
  ∃ tasks, pytask_dag.sort_tasks_topologically G = Return tasks
           ∧ NoDup tasks ∧ (∀ n, n ∈ tasks ↔ has_task G n).
Proof.
  intros Hwf Hacyclic. unfold pytask_dag.sort_tasks_topologically.
  destruct (topological_order_total (length (nx.nodes G)) (nx.names G) []
              Hwf Hacyclic) as [order Horder].
  { unfold nx.names. by rewrite length_fmap. }
  { intros n Hn. by right. }
  rewrite Horder. simpl. eexists. split; [done|].
  apply sort_linearized in Horder as [Hlin Hmem]. split.
  - apply NoDup_filter. apply linearized_NoDup in Hlin.
    by rewrite reverse_Permutation in Hlin.
  - intros n. rewrite list_elem_of_filter, Hmem. split; [by intros [? _]|].
    intros Htask. split; [done|]. apply getitem_is_Some.
    destruct Htask as [t Ht]. destruct (nx.getitem G n); [eauto|done].
Qed.

End acyclic.

(** * What the selection reads *)

Section selection_reads.
Context (State : Database).
Implicit Types (G : nx.DiGraph) (n x : string) (visited : list string).

Lemma same_up_to_markers_refl G : same_up_to_markers G G.
Proof. done. Qed.

Lemma same_up_to_markers_trans G1 G2 G3 :
  same_up_to_markers G1 G2 → same_up_to_markers G2 G3 →
  same_up_to_markers G1 G3.
Proof.
  intros (He & Hl & Hg) (He' & Hl' & Hg'). split; [congruence|].
  split; [congruence|]. intros n. by rewrite Hg', Hg.
Qed.

Lemma assoc_alter_length f n (l : list (string * NodeDict)) :
  length (nx.assoc_alter f n l) = length l.
Proof.
  induction l as [|[k d] l IH]; simpl; [done|].
  destruct (decide (k = n)); simpl; by rewrite ?IH.
Qed.

Lemma append_skip_unchanged_same task_name G G' r :
  append_skip_unchanged task_name G = (G', r) → same_up_to_markers G G'.
Proof.
  unfold append_skip_unchanged. intros Happend.
  destruct (nx.getitem G task_name) as [d|] eqn:Hd;
    [|by injection Happend as <- _].
  destruct (attr_task d) as [task|] eqn:Htask;
    [|by injection Happend as <- _].
  injection Happend as <- _. unfold same_up_to_markers.
  split; [reflexivity|]. split.
  - simpl. apply assoc_alter_length.
  - intros n. unfold nx.getitem in *. simpl.
    destruct (decide (n = task_name)) as [->|Hne].
    + rewrite assoc_alter_eq, Hd. simpl. unfold unmark_dict. simpl.
      by rewrite Htask.
    + by rewrite assoc_alter_ne.
Qed.

Lemma select_loop_same tasks visited G :
  same_up_to_markers G (select_loop State tasks visited G).1.
Proof.
  revert visited G. induction tasks as [|t tasks IH]; intros visited G;
    simpl; [done|].
  destruct (decide (t ∈ visited)); [by apply IH|].
  destruct (_have_task_or_neighbors_changed t G State) as [[]|e];
    [by apply IH| |done].
  destruct (append_skip_unchanged t G) as [G' r] eqn:Happend.
  apply append_skip_unchanged_same in Happend.
  destruct r as [[]|e]; simpl; [|done].
  by eapply same_up_to_markers_trans.
Qed.

Lemma has_node_changed_unmark task_name d :
  _has_node_changed task_name (unmark_dict d) State
  = _has_node_changed task_name d State.
Proof.
  unfold _has_node_changed, task_or_node, unmark_dict. simpl.
  by destruct (attr_task d), (attr_node d).
Qed.

Lemma have_changed_same task_name G G' :
  same_up_to_markers G G' →
  _have_task_or_neighbors_changed task_name G' State
  = _have_task_or_neighbors_changed task_name G State.
Proof.
  intros (He & _ & Hg). unfold _have_task_or_neighbors_changed.
  unfold pytask_dag.node_and_neigbors, nx.predecessors, nx.successors.
  rewrite He. f_equal. apply list_fmap_ext. intros _ n _.
  specialize (Hg n).
  destruct (nx.getitem G' n) as [d'|], (nx.getitem G n) as [d|];
    simpl in Hg; try done.
  assert (unmark_dict d' = unmark_dict d) as Hd by congruence.
  by rewrite <-(has_node_changed_unmark _ d'), Hd, has_node_changed_unmark.
Qed.

Lemma has_task_same G G' n :
  same_up_to_markers G G' → has_task G' n ↔ has_task G n.
Proof.
  intros (_ & _ & Hg). specialize (Hg n). unfold has_task.
  destruct (nx.getitem G' n) as [d'|], (nx.getitem G n) as [d|];
    simpl in *; try done.
  assert (unmark_dict d' = unmark_dict d) as Hd by congruence.
  unfold unmark_dict in Hd. injection Hd as Hd _.
  rewrite <-!not_eq_None_Some.
  destruct (attr_task d'), (attr_task d); done.
Qed.

Lemma descendants_upto_same fuel G G' u :
  nx.edges G' = nx.edges G →
  pytask_dag.descendants_upto fuel G' u = pytask_dag.descendants_upto fuel G u.
Proof.
  intros He. revert u. induction fuel as [|fuel IH]; intros u; simpl; [done|].
  unfold nx.successors. rewrite He. f_equal.
  induction ((filter _ (nx.edges G)).*2) as [|v l IHl]; csimpl; [done|].
  by rewrite IH, IHl.
Qed.

Lemma task_and_descending_tasks_same task_name G G' :
  same_up_to_markers G G' →
  pytask_dag.task_and_descending_tasks task_name G'
  = pytask_dag.task_and_descending_tasks task_name G.
Proof.
  intros Hsame. pose proof Hsame as (He & Hl & _).
  unfold pytask_dag.task_and_descending_tasks. f_equal.
  rewrite Hl, (descendants_upto_same _ G G') by done.
  apply list_filter_iff. intros n. by apply has_task_same.
Qed.

Lemma descendants_upto_complete G fuel u es d :
  path G u es d → length es ≤ fuel →
  d ∈ pytask_dag.descendants_upto fuel G u.
Proof.
  intros Hpath. revert fuel.
  induction Hpath as [a b Hab|a b c es' Hab _ IH]; intros fuel Hlen;
    (destruct fuel as [|fuel]; [simpl in Hlen; lia|]); simpl.
  - apply elem_of_app. left. by apply elem_of_successors.
  - apply elem_of_app. right. apply list_elem_of_bind. exists b. split.
    + apply IH. simpl in Hlen. lia.
    + by apply elem_of_successors.
Qed.

End selection_reads.

(** * Selection in topological order *)

Section selection_order.
Context (G : nx.DiGraph) (State : Database).
Implicit Types (t d n : string) (tasks visited : list string).

Lemma filter_app_inv {A} (P : A → Prop) `{!∀ x, Decision (P x)}
    (l l1 l2 : list A) :
  filter P l = l1 ++ l2 →
  ∃ k1 k2, l = k1 ++ k2 ∧ filter P k1 = l1 ∧ filter P k2 = l2.
Proof.
  revert l1. induction l as [|x l IH]; intros l1 Hfilter.
  - symmetry in Hfilter. apply app_eq_nil in Hfilter as [-> ->].
    by exists [], [].
  - rewrite filter_cons in Hfilter. destruct (decide (P x)) as [HP|HP].
    + destruct l1 as [|y l1]; simpl in Hfilter.
      * exists [], (x :: l). rewrite filter_cons, decide_True by done.
        by rewrite Hfilter.
      * injection Hfilter as -> Hfilter.
        destruct (IH _ Hfilter) as (k1 & k2 & -> & <- & <-).
        exists (y :: k1), k2. by rewrite filter_cons, decide_True.
    + destruct (IH _ Hfilter) as (k1 & k2 & -> & <- & <-).
      exists (x :: k1), k2. by rewrite filter_cons, decide_False.
Qed.

Lemma sort_tasks_spec tasks :
  pytask_dag.sort_tasks_topologically G = Return tasks →
  ∃ order, linearized G (reverse order)
           ∧ (∀ x, x ∈ order ↔ x ∈ nx.names G)
           ∧ tasks = filter (has_task G) order.
Proof.
  unfold pytask_dag.sort_tasks_topologically.
  destruct (pytask_dag.topological_order _ _ _ _) as [order|e] eqn:Horder;
    simpl; [|done].
  intros [= <-]. exists order. by apply sort_linearized in Horder as [? ?].
Qed.

Lemma sort_tasks_NoDup tasks :
  pytask_dag.sort_tasks_topologically G = Return tasks → NoDup tasks.
Proof.
  intros (order & Hlin & _ & ->)%sort_tasks_spec.
  apply NoDup_filter. apply linearized_NoDup in Hlin.
  by rewrite reverse_Permutation in Hlin.
Qed.

Lemma sort_tasks_is_task tasks n :
  pytask_dag.sort_tasks_topologically G = Return tasks →
  n ∈ tasks ↔ has_task G n.
Proof.
  intros (order & _ & Hmem & ->)%sort_tasks_spec.
  rewrite list_elem_of_filter, Hmem. split; [by intros [? _]|].
  intros Htask. split; [done|]. apply getitem_is_Some.
  destruct Htask as [task Htask]. destruct (nx.getitem G n); [eauto|done].
Qed.

(** What a task reaches does not come before it. *)
Lemma descendant_not_before tasks_before t tasks_after es d :
  pytask_dag.sort_tasks_topologically G
  = Return (tasks_before ++ t :: tasks_after) →
  path G t es d → d ∉ tasks_before.
Proof.
  intros (order & Hlin & _ & Htasks)%sort_tasks_spec Hpath Hd.
  symmetry in Htasks.
  apply filter_app_inv in Htasks as (k1 & k2 & -> & <- & Hk2).
  apply list_elem_of_filter in Hd as [_ Hd].
  assert (t ∈ k2) as Ht.
  { assert (t ∈ filter (has_task G) k2) as Hin
      by (rewrite Hk2; apply list_elem_of_here).
    by apply list_elem_of_filter in Hin as [_ ?]. }
  apply list_elem_of_split in Hd as (a & b & ->).
  pose proof (linearized_NoDup _ _ Hlin) as Hnd.
  rewrite reverse_Permutation in Hnd.
  apply NoDup_app in Hnd as (_ & Hdisj & _).
  rewrite !reverse_app, reverse_cons, <-!app_assoc in Hlin. simpl in Hlin.
  rewrite app_assoc in Hlin. apply linearized_suffix in Hlin.
  destruct (linearized_path _ _ _ _ _ Hlin Hpath) as [Hta _].
  rewrite elem_of_reverse in Hta.
  apply (Hdisj t); [|done]. apply elem_of_app. by left.
Qed.

(** A task that a task reaches is among its descending tasks. *)
Lemma descendant_listed tasks t es d :
  pytask_dag.sort_tasks_topologically G = Return tasks →
  path G t es d → has_task G d →
  d ∈ pytask_dag.task_and_descending_tasks t G.
Proof.
  intros Hsort Hpath Htask.
  pose proof (proj2 (sort_tasks_is_task _ d Hsort) Htask) as Hd.
  destruct (sort_tasks_spec _ Hsort) as (order & Hlin & Hmem & ->).
  apply list_elem_of_filter in Hd as [_ Hd].
  unfold pytask_dag.task_and_descending_tasks.
  apply list_elem_of_further, list_elem_of_filter. split; [done|].
  apply (descendants_upto_complete _ _ _ es); [done|].
  pose proof (linearized_NoDup _ _ Hlin) as Hnd.
  rewrite reverse_Permutation in Hnd.
  assert (length order ≤ length (nx.nodes G)) as Hlen.
  { apply NoDup_submseteq with (k := nx.names G) in Hnd;
      [|by intros x ?%Hmem].
    apply submseteq_length in Hnd. unfold nx.names in Hnd.
    by rewrite length_fmap in Hnd. }
  apply list_elem_of_split in Hd as (a & b & ->).
  rewrite reverse_app, reverse_cons, <-app_assoc in Hlin. simpl in Hlin.
  apply linearized_suffix in Hlin.
  destruct (linearized_path _ _ _ _ _ Hlin Hpath) as [_ Hes].
  rewrite length_reverse in Hes. rewrite length_app in Hlen. simpl in Hlen.
  lia.
Qed.

Lemma select_fst tasks :
  pytask_dag.sort_tasks_topologically G = Return tasks →
  (pytask_resolve_dependencies_select_execution_dag G State).1
  = (select_loop State tasks [] G).1.
Proof.
  intros Hsort. unfold pytask_resolve_dependencies_select_execution_dag.
  rewrite Hsort. by destruct (select_loop State tasks [] G).
Qed.

Lemma select_at_turn tasks_before t tasks_after G1 visited :
  pytask_dag.sort_tasks_topologically G
  = Return (tasks_before ++ t :: tasks_after) →
  select_loop State tasks_before [] G = (G1, Return visited) →
  (pytask_resolve_dependencies_select_execution_dag G State).1
  = (select_loop State (t :: tasks_after) visited G1).1
  ∧ same_up_to_markers G G1
  ∧ (t ∉ tasks_before) ∧ (t ∉ tasks_after)
  ∧ ∀ n, n ∉ tasks_before → markers_of G1 n = markers_of G n.
Proof.
  intros Hsort Hloop. rewrite (select_fst _ Hsort), select_loop_app, Hloop.
  split; [done|]. split.
  { pose proof (select_loop_same State tasks_before [] G) as Hsame.
    by rewrite Hloop in Hsame. }
  apply sort_tasks_NoDup, NoDup_app in Hsort as (_ & Hdisj & Hnd).
  apply NoDup_cons in Hnd as [Hafter _].
  split; [|split; [done|]].
  - intros Hin. apply (Hdisj _ Hin), list_elem_of_here.
  - intros n Hn.
    pose proof (select_loop_frame State tasks_before [] G n Hn) as Hframe.
    by rewrite Hloop in Hframe.
Qed.

End selection_order.

(** C1. In a pass of the selection, take the turn of a task [t]: the tasks
    before it have been processed, which gave the visited nodes.  If [t] is
    not visited and the check finds it or a neighbour changed, then no
    node reached from [t] by a directed path, and not [t] itself, gets a
    marker in this pass; and if [t] is visited at its turn, the check of
    its neighbourhood is skipped and [t] gets no marker.  When the sort
    raises (a graph with a cycle) the pass marks nothing at all. *)
Theorem select_monotonic_invalidation
    (G : nx.DiGraph) (State : Database)
    (tasks_before : list string) (t : string) (tasks_after : list string)
    (G1 : nx.DiGraph) (visited : list string) :
  pytask_dag.sort_tasks_topologically G
  = Return (tasks_before ++ t :: tasks_after) →
  select_loop State tasks_before [] G = (G1, Return visited) →
  let selected := (pytask_resolve_dependencies_select_execution_dag G State).1 in
  (t ∉ visited →
   _have_task_or_neighbors_changed t G State = Return true →
   ∀ d, d = t ∨ (∃ es, path G t es d) →
        markers_of selected d = markers_of G d)
  ∧ (t ∈ visited →
     select_loop State (t :: tasks_after) visited G1
     = select_loop State tasks_after visited G1
     ∧ markers_of selected t = markers_of G t)
  ∧ (∀ G' e, pytask_dag.sort_tasks_topologically G' = Raise e →
             (pytask_resolve_dependencies_select_execution_dag G' State).1 = G').
Proof.
  intros Hsort Hloop selected.
  destruct (select_at_turn G State _ _ _ _ _ Hsort Hloop)
    as (Hselected & Hsame & Htb & Hta & Hframe).
  fold selected in Hselected. split; [|split].
  - intros Hvisited Hchanged d Hd.
    destruct (decide (has_task G d)) as [Htask|Hnotask].
    + rewrite Hselected. simpl. rewrite decide_False by done.
      rewrite (have_changed_same State t G G1 Hsame), Hchanged.
      rewrite select_loop_visited.
      * apply Hframe. destruct Hd as [->|[es Hpath]]; [done|].
        by eapply descendant_not_before.
      * apply elem_of_app. right.
        rewrite (task_and_descending_tasks_same t G G1 Hsame).
        destruct Hd as [->|[es Hpath]]; [apply list_elem_of_here|].
        by eapply descendant_listed.
    + unfold selected. rewrite (select_fst G State _ Hsort).
      apply select_loop_frame. by rewrite (sort_tasks_is_task G _ d Hsort).
  - intros Hvisited. split.
    + simpl. by rewrite decide_True.
    + rewrite Hselected. simpl. rewrite decide_True by done.
      rewrite select_loop_frame by done. by apply Hframe.
  - intros G' e Hraise. unfold pytask_resolve_dependencies_select_execution_dag.
    by rewrite Hraise.
Qed.

(** C2. A fault upstream: the check of t1 raises and ends the pass; t2,
    whose neighbourhood is as persisted and which no changed task was
    there to add to the visited nodes, gets no marker. *)
Lemma select_fault_upstream_leaves_unmarked :
  ¬ (∀ (G : nx.DiGraph) (State : Database) (t : string),
       well_formed G → ¬ has_cycle G → has_task G t →
       (∀ n, n ∈ pytask_dag.node_and_neigbors G t → stable G State t n) →
       (∀ a, has_task G a →
             _have_task_or_neighbors_changed a G State ≠ Return true) →
       markers_of (pytask_resolve_dependencies_select_execution_dag G State).1 t
       = markers_of G t ++ [skip_unchanged]).
Proof.
  intros H.
  specialize (H fault_upstream fault_upstream_State "t2").
  assert (¬ has_cycle fault_upstream) as Hacyclic.
  { apply find_cycle_complete; [apply well_formed_create_dag|].
    by vm_compute. }
  specialize (H (well_formed_create_dag _) Hacyclic).
  assert (markers_of
            (pytask_resolve_dependencies_select_execution_dag fault_upstream
               fault_upstream_State).1 "t2"
          ≠ markers_of fault_upstream "t2" ++ [skip_unchanged]) as Hnot
    by by vm_compute.
  apply Hnot, H.
  - vm_compute. eauto.
  - intros n Hn. vm_compute in Hn.
    apply elem_of_cons in Hn as [->|Hn].
    { eexists _, (PTask _), _. by vm_compute. }
    apply elem_of_cons in Hn as [->|Hn].
    { eexists _, (PNode file_f), _. by vm_compute. }
    by apply elem_of_nil in Hn.
  - intros a Ha. unfold fault_upstream in Ha.
    unfold pytask_resolve_dependencies_create_dag in Ha.
    apply has_task_foldl_add_task in Ha as [Ha|[task Ha]];
      [|by vm_compute in Ha].
    vm_compute in Ha.
    apply elem_of_cons in Ha as [->|Ha]; [by vm_compute|].
    apply elem_of_cons in Ha as [->|Ha]; [by vm_compute|].
    by apply elem_of_nil in Ha.
Qed.

(** C2, amended. On a graph without cycle every task has its turn in the
    pass.  When the pass reaches the turn of [t] (the loop over the tasks
    sorted before [t] returned) with [t] not visited, and every node of
    the neighbourhood of [t] has a current state equal to the state
    persisted for [t] and that node, the pass appends exactly one marker
    [skip_unchanged] to [t].  When the loop over the tasks before [t]
    raises, the selection raises the same exception and [t] gets no
    marker. *)
Theorem select_unchanged_stability
    (G : nx.DiGraph) (State : Database) (t : string) :
  well_formed G →
  ¬ has_cycle G →
  has_task G t →
  (∀ n, n ∈ pytask_dag.node_and_neigbors G t → stable G State t n) →
  ∃ tasks_before tasks_after,
    pytask_dag.sort_tasks_topologically G
    = Return (tasks_before ++ t :: tasks_after)
    ∧ (∀ G1 visited,
         select_loop State tasks_before [] G = (G1, Return visited) →
         t ∉ visited →
         markers_of (pytask_resolve_dependencies_select_execution_dag G State).1 t
         = markers_of G t ++ [skip_unchanged])
    ∧ (∀ G1 e,
         select_loop State tasks_before [] G = (G1, Raise e) →
         (pytask_resolve_dependencies_select_execution_dag G State).2 = Raise e
         ∧ markers_of (pytask_resolve_dependencies_select_execution_dag G State).1 t
           = markers_of G t).
Proof.
  intros Hwf Hacyclic Htask Hstable.
  destruct (sort_tasks_topologically_total G Hwf Hacyclic)
    as (tasks & Hsort & _ & Hmem).
  apply Hmem, list_elem_of_split in Htask as (tasks_before & tasks_after & ->).
  exists tasks_before, tasks_after. split; [done|]. split.
  - intros G1 visited Hloop Hvisited.
    destruct (select_at_turn G State _ _ _ _ _ Hsort Hloop)
      as (-> & Hsame & Htb & Hta & Hframe).
    simpl. rewrite decide_False by done.
    rewrite (have_changed_same State t G G1 Hsame).
    assert (_have_task_or_neighbors_changed t G State = Return false) as ->.
    { unfold _have_task_or_neighbors_changed.
      induction (pytask_dag.node_and_neigbors G t) as [|n l IH]; csimpl;
        [done|].
      destruct (Hstable n) as (d & p & s & -> & Hp & Hs & Hdb);
        [apply list_elem_of_here|].
      unfold _has_node_changed, State_getitem. rewrite Hp. simpl.
      rewrite Hs, Hdb. rewrite bool_decide_eq_true_2 by done. simpl.
      apply IH. intros m Hm. by apply Hstable, list_elem_of_further. }
    assert (has_task G1 t) as Htask1.
    { apply (has_task_same G G1 t Hsame), (sort_tasks_is_task G _ t Hsort).
      apply elem_of_app. right. apply list_elem_of_here. }
    destruct (append_skip_unchanged_is_task t G1 Htask1) as [G2 Happend].
    rewrite Happend. rewrite select_loop_frame by done.
    rewrite (append_skip_unchanged_appends _ _ _ Happend). f_equal.
    by apply Hframe.
  - intros G1 e Hloop.
    assert (t ∉ tasks_before) as Htb.
    { apply sort_tasks_NoDup, NoDup_app in Hsort as (_ & Hdisj & _).
      intros Hin. apply (Hdisj _ Hin), list_elem_of_here. }
    pose proof (select_loop_frame State tasks_before [] G t Htb) as Hframe.
    unfold pytask_resolve_dependencies_select_execution_dag.
    rewrite Hsort, select_loop_app, Hloop. rewrite Hloop in Hframe. done.
Qed.

(** C5. A state query that fails with a fault other than "not found" is
    not answered by "changed": the fault leaves [_has_node_changed]. *)
Lemma has_node_changed_fault_not_changed :
  ¬ (∀ (task_name : string) (node_dict : NodeDict) (node : payload)
       (State : Database) (e : exn),
       task_or_node node_dict = Return node →
       payload_state node = Raise e →
       _has_node_changed task_name node_dict State = Return true).
Proof.
  intros H.
  specialize (H "t" (mkNodeDict None (Some (Node.mk "n" (Fault "PermissionError"))))
                (PNode (Node.mk "n" (Fault "PermissionError"))) ∅
                (OtherException "PermissionError") eq_refl eq_refl).
  discriminate H.
Qed.

Section check_raises.
Context (State : Database).
Implicit Types (G : nx.DiGraph) (t n : string).

(** [any] meets the exception of an item when every item before it is
    false. *)
Lemma any_raises (before : list (result bool)) e after :
  Forall (λ item, item = Return false) before →
  any (before ++ Raise e :: after) = Raise e.
Proof. induction 1 as [|item before -> _ IH]; simpl; done. Qed.

Lemma have_changed_raises G t before n after node_dict e :
  pytask_dag.node_and_neigbors G t = before ++ n :: after →
  (∀ m, m ∈ before →
        ∃ d, nx.getitem G m = Some d
             ∧ _has_node_changed t d State = Return false) →
  nx.getitem G n = Some node_dict →
  _has_node_changed t node_dict State = Raise e →
  _have_task_or_neighbors_changed t G State = Raise e.
Proof.
  intros Hsplit Hbefore Hn Hraise. unfold _have_task_or_neighbors_changed.
  rewrite Hsplit, fmap_app, fmap_cons, Hn, Hraise.
  apply any_raises, Forall_fmap, Forall_forall. intros m Hm. simpl.
  by destruct (Hbefore m Hm) as (d & -> & ->).
Qed.

End check_raises.

(** C5, amended. When the state query of the node raises
    [NodeNotFoundError], [_has_node_changed] answers "changed"; when it
    raises anything else, the exception is not caught: it leaves
    [_has_node_changed].  It then leaves the check of every task that
    reaches the node, the task itself or one of its dependencies or
    products, with the nodes before it in the neighbourhood unchanged; the
    loop that comes to the turn of such a task stops there, and the
    selection raises the exception. *)
Theorem has_node_changed_state_failure
    (task_name : string) (node_dict : NodeDict) (node : payload)
    (State : Database) (e : exn) :
  task_or_node node_dict = Return node →
  payload_state node = Raise e →
  match e with
  | NodeNotFoundError _ =>
      _has_node_changed task_name node_dict State = Return true
  | _ =>
      _has_node_changed task_name node_dict State = Raise e
      ∧ ∀ G before n after,
          pytask_dag.node_and_neigbors G task_name = before ++ n :: after →
          (∀ m, m ∈ before →
                ∃ d, nx.getitem G m = Some d
                     ∧ _has_node_changed task_name d State = Return false) →
          nx.getitem G n = Some node_dict →
          _have_task_or_neighbors_changed task_name G State = Raise e
          ∧ (∀ tasks visited,
               task_name ∉ visited →
               select_loop State (task_name :: tasks) visited G
               = (G, Raise e))
          ∧ (∀ tasks_before tasks_after G1 visited,
               pytask_dag.sort_tasks_topologically G
               = Return (tasks_before ++ task_name :: tasks_after) →
               select_loop State tasks_before [] G = (G1, Return visited) →
               task_name ∉ visited →
               pytask_resolve_dependencies_select_execution_dag G State
               = (G1, Raise e))
  end.
Proof.
  intros Hnode Hstate.
  assert (_has_node_changed task_name node_dict State
          = match e with
            | NodeNotFoundError _ => Return true
            | _ => Raise e
            end) as Hchanged.
  { unfold _has_node_changed. rewrite Hnode. simpl. rewrite Hstate.
    by destruct e. }
  assert (_has_node_changed task_name node_dict State = Raise e →
          ∀ G before n after,
            pytask_dag.node_and_neigbors G task_name = before ++ n :: after →
            (∀ m, m ∈ before →
                  ∃ d, nx.getitem G m = Some d
                       ∧ _has_node_changed task_name d State = Return false) →
            nx.getitem G n = Some node_dict →
            _have_task_or_neighbors_changed task_name G State = Raise e
            ∧ (∀ tasks visited,
                 task_name ∉ visited →
                 select_loop State (task_name :: tasks) visited G
                 = (G, Raise e))
            ∧ (∀ tasks_before tasks_after G1 visited,
                 pytask_dag.sort_tasks_topologically G
                 = Return (tasks_before ++ task_name :: tasks_after) →
                 select_loop State tasks_before [] G = (G1, Return visited) →
                 task_name ∉ visited →
                 pytask_resolve_dependencies_select_execution_dag G State
                 = (G1, Raise e))) as Hends.
  { intros Hraise G before n after Hsplit Hbefore Hn.
    pose proof (have_changed_raises State G task_name before n after
                  node_dict e Hsplit Hbefore Hn Hraise) as Hcheck.
    split; [done|]. split.
    - intros tasks visited Hvisited. simpl.
      by rewrite decide_False, Hcheck.
    - intros tasks_before tasks_after G1 visited Hsort Hloop Hvisited.
      destruct (select_at_turn G State _ _ _ _ _ Hsort Hloop)
        as (_ & Hsame & _).
      unfold pytask_resolve_dependencies_select_execution_dag.
      rewrite Hsort, select_loop_app, Hloop. simpl.
      rewrite decide_False by done.
      by rewrite (have_changed_same State task_name G G1 Hsame), Hcheck. }
  destruct e; try done; split; try done; by apply Hends.
Qed.

(** A missing file counts as changed; a dependency whose state query
    fails with a fault ends the selection with the fault, although the
    task is in its persisted state. *)
Lemma has_node_changed_state_failure_witness :
  _has_node_changed "C" (mkNodeDict None (Some (Node.mk "r" Missing))) ∅
  = Return true
  ∧ _have_task_or_neighbors_changed "t" faulty_dependency
      faulty_dependency_State
    = Raise (OtherException "PermissionError")
  ∧ pytask_resolve_dependencies_select_execution_dag faulty_dependency
      faulty_dependency_State
    = (faulty_dependency, Raise (OtherException "PermissionError")).
Proof.
  split.
  { exact (has_node_changed_state_failure "C"
             (mkNodeDict None (Some (Node.mk "r" Missing)))
             (PNode (Node.mk "r" Missing)) ∅ (NodeNotFoundError None)
             eq_refl eq_refl). }
  destruct (has_node_changed_state_failure "t"
              (mkNodeDict None (Some (Node.mk "d" (Fault "PermissionError"))))
              (PNode (Node.mk "d" (Fault "PermissionError")))
              faulty_dependency_State (OtherException "PermissionError")
              eq_refl eq_refl) as [_ Hends].
  destruct (Hends faulty_dependency ["t"] "d" []) as (Hcheck & _ & Hselect).
  - by vm_compute.
  - intros m Hm. apply list_elem_of_singleton in Hm as ->.
    eexists. split; by vm_compute.
  - by vm_compute.
  - split; [done|]. apply (Hselect [] [] faulty_dependency []).
    + by vm_compute.
    + done.
    + apply not_elem_of_nil.
Defined.

(** C7. The resolution of [faulty_session] fails in the selection, after
    the first task got its marker: the graph of the session carries it. *)
Lemma resolve_dependencies_exposes_markers :
  ¬ (∀ (session : Session) (State : Database),
       match pytask_resolve_dependencies session State with
       | (session', Raise _) =>
           ∀ G' n, dag session' = Some G' →
                   markers_of G' n
                   = markers_of
                       (pytask_resolve_dependencies_create_dag (tasks session)) n
       | (_, Return _) => True
       end).
Proof.
  intros H. specialize (H faulty_session faulty_State).
  vm_compute in H. specialize (H _ "t1" eq_refl). discriminate H.
Qed.

(** C7, amended. The resolution builds the graph, validates it and
    selects, in this order.  Either all three return: the session holds
    the graph with its markers, and [True] is returned.  Or the first
    exception is caught, wrapped in one report that is printed and kept in
    the session, and one [ResolvingDependenciesError] is raised; the
    session then still holds the graph: as built when the validation
    failed, and with the markers appended so far when the selection
    failed. *)
Theorem resolve_dependencies_outcome (session : Session) (State : Database) :
  let G := pytask_resolve_dependencies_create_dag (tasks session) in
  let selected := pytask_resolve_dependencies_select_execution_dag G State in
  match pytask_resolve_dependencies session State with
  | (session', Return b) =>
      b = true
      ∧ pytask_resolve_dependencies_validate_dag G = Return ()
      ∧ selected.2 = Return ()
      ∧ dag session' = Some selected.1
      ∧ resolving_dependencies_report session'
        = resolving_dependencies_report session
      ∧ terminal session' = terminal session
  | (session', Raise e) =>
      e = ResolvingDependenciesError None
      ∧ ∃ cause,
          (pytask_resolve_dependencies_validate_dag G = Raise cause
           ∧ dag session' = Some G
           ∨ pytask_resolve_dependencies_validate_dag G = Return ()
             ∧ selected.2 = Raise cause
             ∧ dag session' = Some selected.1)
          ∧ resolving_dependencies_report session' = Some (mkReport cause)
          ∧ terminal session' = terminal session ++ [mkReport cause]
  end.
Proof.
  intros G selected. unfold pytask_resolve_dependencies.
  fold G. fold selected.
  destruct (pytask_resolve_dependencies_validate_dag G) as [[]|cause].
  - destruct selected as [G' [[]|cause]]; simpl.
    + done.
    + split; [done|]. exists cause. split; [|done]. right. done.
  - simpl. split; [done|]. exists cause. split; [|done]. by left.
Qed.

(** * The theorems on the scenarios *)

Lemma pipeline_acyclic : ¬ has_cycle pipeline.
Proof.
  apply find_cycle_complete; [apply well_formed_create_dag|]. by vm_compute.
Qed.

Lemma pipeline_path_A_B :
  path pipeline "A" [("A", "file1"); ("file1", "B")] "B".
Proof.
  apply path_cons; [|apply path_one]; vm_compute; set_solver.
Qed.

(** Task A changed: B, which is reached from A, gets no marker although
    its own neighbourhood is as persisted. *)
Lemma select_monotonic_invalidation_witness :
  markers_of
    (pytask_resolve_dependencies_select_execution_dag pipeline
       persisted_before_A_changed).1 "B"
  = markers_of pipeline "B".
Proof.
  refine (proj1 (select_monotonic_invalidation pipeline
                   persisted_before_A_changed [] "A" ["B"] pipeline []
                   _ _) _ _ "B" _).
  - by vm_compute.
  - reflexivity.
  - apply not_elem_of_nil.
  - by vm_compute.
  - right. eexists. apply pipeline_path_A_B.
Defined.

(** Everything is as persisted: B gets its marker. *)
Lemma select_unchanged_stability_witness :
  ∃ tasks_before tasks_after,
    pytask_dag.sort_tasks_topologically pipeline
    = Return (tasks_before ++ "B" :: tasks_after)
    ∧ (∀ G1 visited,
         select_loop persisted tasks_before [] pipeline = (G1, Return visited) →
         "B" ∉ visited →
         markers_of
           (pytask_resolve_dependencies_select_execution_dag pipeline persisted).1
           "B"
         = markers_of pipeline "B" ++ [skip_unchanged])
    ∧ (∀ G1 e,
         select_loop persisted tasks_before [] pipeline = (G1, Raise e) →
         (pytask_resolve_dependencies_select_execution_dag pipeline persisted).2
         = Raise e
         ∧ markers_of
             (pytask_resolve_dependencies_select_execution_dag pipeline
                persisted).1 "B"
           = markers_of pipeline "B").
Proof.
  apply (select_unchanged_stability pipeline persisted "B").
  - apply well_formed_create_dag.
  - apply pipeline_acyclic.
  - vm_compute. eauto.
  - intros n Hn. vm_compute in Hn.
    apply elem_of_cons in Hn as [->|Hn].
    { eexists _, (PTask task_B), _. by vm_compute. }
    apply elem_of_cons in Hn as [->|Hn].
    { eexists _, (PNode file1), _. by vm_compute. }
    by apply elem_of_nil in Hn.
Defined.

(** The circular graph is rejected with its cycle. *)
Lemma validate_dag_cycle_soundness_witness :
  well_formed circular
  ∧ pytask_resolve_dependencies_validate_dag circular
    = Raise (ResolvingDependenciesError
               (Some [("A", "X"); ("X", "B"); ("B", "Y"); ("Y", "A")]))
  ∧ closed_path circular [("A", "X"); ("X", "B"); ("B", "Y"); ("Y", "A")].
Proof.
  assert (well_formed circular) as Hwf by apply well_formed_create_dag.
  split; [done|]. split; [by vm_compute|].
  apply (proj1 (proj2 (validate_dag_cycle_soundness circular Hwf))).
  by vm_compute.
Defined.

Lemma needs_missing_file_acyclic : ¬ has_cycle needs_missing_file.
Proof.
  apply find_cycle_complete; [apply well_formed_create_dag|]. by vm_compute.
Qed.

Lemma needs_missing_file_roots : roots_without_fault needs_missing_file.
Proof.
  intros n p what (Hn & Hp & _) Hfault. vm_compute in Hn.
  apply elem_of_cons in Hn as [->|Hn]; [by vm_compute in Hp|].
  apply elem_of_cons in Hn as [->|Hn]; [|by apply elem_of_nil in Hn].
  vm_compute in Hp. injection Hp as <-. done.
Qed.

(** The missing file and the task that needs it are named; beside a
    cycle the cycle is what the error reports. *)
Lemma validate_dag_root_completeness_witness :
  (pytask_resolve_dependencies_validate_dag needs_missing_file
   = Raise (NodeNotFoundError (Some ("r", ["C"])))
   ∧ missing_root needs_missing_file "r"
   ∧ ["C"] = nx.successors needs_missing_file "r"
   ∧ ∃ before after,
       nx.names needs_missing_file = before ++ "r" :: after
       ∧ ∀ m, m ∈ before → ¬ missing_root needs_missing_file m)
  ∧ ∃ cycles,
      pytask_resolve_dependencies_validate_dag cycle_and_missing_root
      = Raise (ResolvingDependenciesError (Some cycles)).
Proof.
  split.
  - split; [by vm_compute|].
    apply (proj1 (proj2 (proj1 (proj2 (validate_dag_root_completeness
                                         needs_missing_file))
                           needs_missing_file_acyclic
                           needs_missing_file_roots))).
    by vm_compute.
  - apply (proj1 (validate_dag_root_completeness cycle_and_missing_root)).
    + apply well_formed_create_dag.
    + exists [("A", "X"); ("X", "B"); ("B", "Y"); ("Y", "A")].
      apply find_cycle_sound. by vm_compute.
Defined.

(** The pipeline declared in the other order; file1, added again with
    another state, is held in that state. *)
Lemma create_dag_idempotent_order_independent_witness :
  (node_set (pytask_resolve_dependencies_create_dag [task_B; task_A])
   = node_set (pytask_resolve_dependencies_create_dag [task_A; task_B])
   ∧ edge_set (pytask_resolve_dependencies_create_dag [task_B; task_A])
     = edge_set (pytask_resolve_dependencies_create_dag [task_A; task_B]))
  ∧ nx.getitem
      (nx.add_node "file1"
         (mkNodeDict None (Some (Node.mk "file1" (Exists "h2")))) pipeline)
      "file1"
    = Some (mkNodeDict None (Some (Node.mk "file1" (Exists "h2")))).
Proof.
  pose proof (create_dag_idempotent_order_independent
                [task_A; task_B] [task_B; task_A] [task_B; task_A]
                (perm_swap _ _ _)
                ltac:(by repeat constructor)) as (Hsets & _ & Hadd & _).
  split; [exact Hsets|].
  destruct (Hadd "file1"
              (mkNodeDict None (Some (Node.mk "file1" (Exists "h2")))))
    as (_ & _ & _ & _ & Hpayload & _).
  - vm_compute. apply list_elem_of_further, list_elem_of_here.
  - unfold pipeline. rewrite Hpayload. by vm_compute.
Defined.

(** * Further properties of the build and of the selection *)

Section selection_returns.
Context (G : nx.DiGraph) (State : Database).
Implicit Types (n t : string) (tasks visited : list string).

Lemma select_loop_names tasks visited G0 :
  nx.names (select_loop State tasks visited G0).1 = nx.names G0.
Proof.
  revert visited G0. induction tasks as [|t tasks IH]; intros visited G0;
    simpl; [done|].
  destruct (decide (t ∈ visited)); [by apply IH|].
  destruct (_have_task_or_neighbors_changed t G0 State) as [[]|e];
    [by apply IH| |done].
  unfold append_skip_unchanged.
  destruct (nx.getitem G0 t) as [d|]; [|done].
  destruct (attr_task d); [|done].
  rewrite IH. unfold nx.names. simpl. apply assoc_alter_names.
Qed.

Lemma has_node_changed_returns task_name node_dict node :
  task_or_node node_dict = Return node →
  (∀ what, payload_state node ≠ Raise (OtherException what)) →
  ∃ b, _has_node_changed task_name node_dict State = Return b.
Proof.
  intros Hnode Hfault. unfold _has_node_changed. rewrite Hnode. simpl.
  destruct node as [task|node]; simpl in *.
  - destruct (Task.state task) as [s| |what]; simpl in *.
    + unfold State_getitem. destruct (State !! _); eauto.
    + eauto.
    + by destruct (Hfault what).
  - destruct (Node.state node) as [s| |what]; simpl in *.
    + unfold State_getitem. destruct (State !! _); eauto.
    + eauto.
    + by destruct (Hfault what).
Qed.

Lemma any_returns (items : list (result bool)) :
  Forall (λ item, ∃ b, item = Return b) items → ∃ b, any items = Return b.
Proof.
  induction 1 as [|item items [b ->] _ IH]; simpl; [eauto|].
  destruct b; eauto.
Qed.

Lemma have_changed_returns t :
  well_formed G → queries_answer G → t ∈ nx.names G →
  ∃ b, _have_task_or_neighbors_changed t G State = Return b.
Proof.
  intros Hwf Hanswer Ht. unfold well_formed in Hwf.
  rewrite Forall_forall in Hwf.
  apply any_returns, Forall_fmap, Forall_forall. intros n Hn. simpl.
  assert (n ∈ nx.names G) as Hin.
  { unfold pytask_dag.node_and_neigbors in Hn.
    apply elem_of_cons in Hn as [->|Hn]; [done|].
    apply elem_of_app in Hn as [Hn|Hn].
    - apply elem_of_predecessors in Hn. by destruct (Hwf _ Hn).
    - apply elem_of_successors in Hn. by destruct (Hwf _ Hn). }
  destruct (Hanswer n Hin) as (d & p & -> & Hp & Hfault).
  by eapply has_node_changed_returns.
Qed.

Lemma select_loop_returns tasks visited G0 :
  well_formed G → queries_answer G →
  same_up_to_markers G G0 →
  (∀ t, t ∈ tasks → has_task G t) →
  ∃ visited', (select_loop State tasks visited G0).2 = Return visited'.
Proof.
  intros Hwf Hanswer. revert visited G0.
  induction tasks as [|t tasks IH]; intros visited G0 Hsame Htasks; simpl;
    [eauto|].
  assert (∀ t', t' ∈ tasks → has_task G t') as Htasks'.
  { intros t' Ht'. by apply Htasks, list_elem_of_further. }
  destruct (decide (t ∈ visited)); [by apply IH|].
  assert (has_task G t) as Ht by apply Htasks, list_elem_of_here.
  destruct (have_changed_returns t Hwf Hanswer) as [b Hb].
  { apply getitem_is_Some. destruct Ht as [task Htask].
    destruct (nx.getitem G t); [eauto|done]. }
  rewrite (have_changed_same State t G G0 Hsame), Hb.
  destruct b; [by apply IH|].
  destruct (append_skip_unchanged_is_task t G0) as [G1 Happend].
  { by apply (has_task_same G G0 t Hsame). }
  rewrite Happend. apply IH; [|done].
  eapply same_up_to_markers_trans; [done|].
  by eapply append_skip_unchanged_same.
Qed.

End selection_returns.

(** X1. The selection changes nothing but the markers of the tasks: the
    nodes, the edges, the data nodes and the tasks apart from their
    markers are after the pass what they were before, whether it returns
    or raises. *)
Theorem select_preserves_structure (G : nx.DiGraph) (State : Database) :
  let selected := (pytask_resolve_dependencies_select_execution_dag G State).1 in
  same_up_to_markers G selected ∧ nx.names selected = nx.names G.
Proof.
  simpl. unfold pytask_resolve_dependencies_select_execution_dag.
  destruct (pytask_dag.sort_tasks_topologically G) as [tasks|e];
    [|by split; [apply same_up_to_markers_refl|]].
  pose proof (select_loop_same State tasks [] G) as Hsame.
  pose proof (select_loop_names State tasks [] G) as Hnames.
  by destruct (select_loop State tasks [] G).
Qed.

(** X2. In the built graph every edge joins a data node and a task: it
    leads from a dependency to its task or from a task to its product, and
    both its ends are nodes of the graph with a payload. *)
Theorem create_dag_edges_join_data_and_task (tasks : list Task.t) :
  let G := pytask_resolve_dependencies_create_dag tasks in
  well_formed G
  ∧ Forall (λ e, has_node G e.1 ∧ has_task G e.2
                 ∨ has_task G e.1 ∧ has_node G e.2) (nx.edges G).
Proof.
  intros G. split; [apply well_formed_create_dag|].
  apply Forall_forall. intros [u v] Huv. simpl.
  assert ((u, v) ∈ edge_set G) as Hset by by apply elem_of_list_to_set.
  unfold G in Hset. rewrite edge_set_create_dag in Hset.
  apply elem_of_union_list in Hset as (E & HE & Hin).
  apply list_elem_of_fmap in HE as (task & -> & Htask).
  assert (has_task G (Task.name task)) as Hname.
  { unfold G, pytask_resolve_dependencies_create_dag.
    apply has_task_foldl_add_task. left. by apply list_elem_of_fmap_2. }
  assert (∀ n, n ∈ data_names task → has_node G n) as Hdata.
  { intros n Hn. unfold G, pytask_resolve_dependencies_create_dag.
    apply has_node_foldl_add_task. left. apply list_elem_of_bind. eauto. }
  unfold task_edges, data_names in *.
  apply elem_of_union in Hin as [Hin|Hin];
    apply elem_of_list_to_set, list_elem_of_fmap in Hin as (d & [= -> ->] & Hd).
  - left. split; [|done]. apply Hdata, list_elem_of_fmap_2, elem_of_app. by left.
  - right. split; [done|]. apply Hdata, list_elem_of_fmap_2, elem_of_app. by right.
Qed.

(** X3. On a graph without cycle whose nodes all have a payload, the
    selection raises only what a state query raises: when no state query
    fails with a fault of its own, the selection returns. *)
Theorem select_returns (G : nx.DiGraph) (State : Database) :
  well_formed G → ¬ has_cycle G → queries_answer G →
  (pytask_resolve_dependencies_select_execution_dag G State).2 = Return ().
Proof.
  intros Hwf Hacyclic Hanswer.
  unfold pytask_resolve_dependencies_select_execution_dag.
  destruct (sort_tasks_topologically_total G Hwf Hacyclic)
    as (tasks & -> & _ & Hmem).
  destruct (select_loop_returns G State tasks [] G Hwf Hanswer) as [v Hv].
  - apply same_up_to_markers_refl.
  - intros t. apply Hmem.
  - destruct (select_loop State tasks [] G) as [G' r]. simpl in *. by subst.
Qed.

(** The pipeline in its persisted state is selected without error. *)
Lemma select_returns_witness :
  (pytask_resolve_dependencies_select_execution_dag pipeline persisted).2
  = Return ().
Proof.
  apply select_returns.
  - apply well_formed_create_dag.
  - apply pipeline_acyclic.
  - intros n Hn. vm_compute in Hn.
    apply elem_of_cons in Hn as [->|Hn].
    { eexists _, (PTask task_A). by vm_compute. }
    apply elem_of_cons in Hn as [->|Hn].
    { eexists _, (PNode file1). by vm_compute. }
    apply elem_of_cons in Hn as [->|Hn].
    { eexists _, (PTask task_B). by vm_compute. }
    by apply elem_of_nil in Hn.
Defined.

(** * What a validated graph guarantees *)

(** X4. What a validated graph guarantees: when the validation returns,
    the graph has no directed cycle and every node with a data payload
    and no incoming edge exists (its state query returned a state). *)
Theorem validate_dag_postcondition (G : nx.DiGraph) :
  well_formed G →
  pytask_resolve_dependencies_validate_dag G = Return () →
  ¬ has_cycle G
  ∧ ∀ n payload, root_node G n payload →
                 ∃ state, Node.state payload = Exists state.
Proof.
  intros Hwf. unfold pytask_resolve_dependencies_validate_dag.
  destruct (check_cycles_outcome G) as [(c & _ & ->)|[Hnone ->]]; [done|].
  simpl. intros Hroots. split; [by apply find_cycle_complete|].
  intros n p Hroot. eapply root_nodes_loop_returns; [done| |done].
  by destruct Hroot.
Qed.

Lemma validate_dag_postcondition_witness :
  ¬ has_cycle pipeline
  ∧ ∀ n payload, root_node pipeline n payload →
                 ∃ state, Node.state payload = Exists state.
Proof.
  apply validate_dag_postcondition.
  - apply well_formed_create_dag.
  - by vm_compute.
Defined.

(** X5. The root that the error names is the first missing one: the
    cycle check has passed, every root node before it in the order of the
    nodes exists, and the successors in the message are its own. *)
Theorem validate_dag_first_missing_root
    (G : nx.DiGraph) (n : string) (successors : list string) :
  pytask_resolve_dependencies_validate_dag G
  = Raise (NodeNotFoundError (Some (n, successors))) →
  _check_if_dag_has_cycles G = Return ()
  ∧ ∃ before after,
      nx.names G = before ++ n :: after
      ∧ (∀ m payload, m ∈ before → root_node G m payload →
                      ∃ state, Node.state payload = Exists state)
      ∧ missing_root G n
      ∧ successors = nx.successors G n.
Proof.
  unfold pytask_resolve_dependencies_validate_dag.
  destruct (check_cycles_outcome G) as [(c & _ & ->)|[_ ->]]; [done|].
  simpl. intros Hloop. split; [done|].
  apply root_nodes_loop_first_missing in Hloop
    as (before & after & Hnames & Hbefore & (p & Hp & Hpreds & Hstate) & ->).
  exists before, after. split; [done|]. split; [done|]. split; [|done].
  exists p. split; [|done]. split; [|done].
  rewrite Hnames. apply elem_of_app. right. apply list_elem_of_here.
Qed.

Lemma validate_dag_first_missing_root_witness :
  _check_if_dag_has_cycles needs_missing_file = Return ()
  ∧ ∃ before after,
      nx.names needs_missing_file = before ++ "r" :: after
      ∧ (∀ m payload, m ∈ before → root_node needs_missing_file m payload →
                      ∃ state, Node.state payload = Exists state)
      ∧ missing_root needs_missing_file "r"
      ∧ ["C"] = nx.successors needs_missing_file "r".
Proof.
  apply validate_dag_first_missing_root. by vm_compute.
Defined.

(** X6. A task that depends on what it produces is rejected: when a
    dependency and a product of one task have the same name, the
    validation of the built graph raises the error of the cycle check, with
    a closed path of the graph. *)
Theorem create_dag_self_dependency_rejected
    (tasks : list Task.t) (task : Task.t) (dependency product : Node.t) :
  task ∈ tasks →
  dependency ∈ Task.depends_on task →
  product ∈ Task.produces task →
  Node.name dependency = Node.name product →
  let G := pytask_resolve_dependencies_create_dag tasks in
  ∃ cycles,
    pytask_resolve_dependencies_validate_dag G
    = Raise (ResolvingDependenciesError (Some cycles))
    ∧ closed_path G cycles.
Proof.
  intros Htask Hdep Hprod Hname G.
  assert (∀ e, e ∈ task_edges task → e ∈ nx.edges G) as Hedges.
  { intros e He. apply (elem_of_list_to_set (C := gset (string * string))).
    fold (edge_set G). unfold G. rewrite edge_set_create_dag.
    apply elem_of_union_list. exists (task_edges task).
    split; [by apply list_elem_of_fmap_2|done]. }
  assert (has_cycle G) as Hcycle.
  { exists [(Node.name dependency, Task.name task);
            (Task.name task, Node.name dependency)], (Node.name dependency).
    apply path_cons; [|apply path_one]; apply Hedges; unfold task_edges.
    - apply elem_of_union_l, elem_of_list_to_set.
      by apply (list_elem_of_fmap_2 (λ d, (Node.name d, Task.name task))).
    - apply elem_of_union_r, elem_of_list_to_set. rewrite Hname.
      by apply (list_elem_of_fmap_2 (λ p, (Task.name task, Node.name p))). }
  apply (find_cycle_iff G (well_formed_create_dag tasks)) in Hcycle
    as [cycles Hfind].
  exists cycles. split; [|by apply find_cycle_sound].
  unfold pytask_resolve_dependencies_validate_dag, _check_if_dag_has_cycles.
  by rewrite Hfind.
Qed.

Lemma create_dag_self_dependency_rejected_witness :
  ∃ cycles,
    pytask_resolve_dependencies_validate_dag
      (pytask_resolve_dependencies_create_dag
         [Task.mk "A" [file1] [file1] [] (Exists "sA")])
    = Raise (ResolvingDependenciesError (Some cycles))
    ∧ closed_path
        (pytask_resolve_dependencies_create_dag
           [Task.mk "A" [file1] [file1] [] (Exists "sA")])
        cycles.
Proof.
  apply (create_dag_self_dependency_rejected
           [Task.mk "A" [file1] [file1] [] (Exists "sA")]
           (Task.mk "A" [file1] [file1] [] (Exists "sA")) file1 file1).
  - apply list_elem_of_here.
  - apply list_elem_of_here.
  - apply list_elem_of_here.
  - reflexivity.
Defined.

(** * What a marker tells *)

Section markers.
Context (G : nx.DiGraph) (State : Database).
Implicit Types (t n x d : string) (tasks visited : list string).

Lemma append_skip_unchanged_raise task_name G0 G' e :
  append_skip_unchanged task_name G0 = (G', Raise e) → G' = G0.
Proof.
  unfold append_skip_unchanged.
  destruct (nx.getitem G0 task_name) as [node_dict|]; [|by intros [= <-]].
  destruct (attr_task node_dict); [done|by intros [= <-]].
Qed.

(** A pass over tasks without repetition appends at most one marker to
    a task. *)
Lemma select_loop_at_most_one tasks visited G0 n :
  NoDup tasks →
  markers_of (select_loop State tasks visited G0).1 n = markers_of G0 n
  ∨ markers_of (select_loop State tasks visited G0).1 n
    = markers_of G0 n ++ [skip_unchanged].
Proof.
  revert visited G0. induction tasks as [|t tasks IH];
    intros visited G0 Hnd; simpl; [by left|].
  apply NoDup_cons in Hnd as [Ht Hnd].
  destruct (decide (t ∈ visited)); [by apply IH|].
  destruct (_have_task_or_neighbors_changed t G0 State) as [[]|e];
    [by apply IH| |by left].
  destruct (append_skip_unchanged t G0) as [G' [[]|e]] eqn:Happend; simpl.
  - destruct (decide (n = t)) as [->|Hne].
    + right. rewrite select_loop_frame by done.
      by apply append_skip_unchanged_appends.
    + rewrite <-(append_skip_unchanged_markers _ _ _ _ n Happend Hne).
      by apply IH.
  - left. by rewrite (append_skip_unchanged_raise _ _ _ _ Happend).
Qed.

(** A task whose markers the pass changed had its turn, was not visited
    then, and the check found nothing changed. *)
Lemma select_loop_changed_markers tasks visited G0 n :
  same_up_to_markers G G0 →
  markers_of (select_loop State tasks visited G0).1 n ≠ markers_of G0 n →
  n ∈ tasks
  ∧ _have_task_or_neighbors_changed n G State = Return false.
Proof.
  revert visited G0. induction tasks as [|t tasks IH];
    intros visited G0 Hsame; simpl; [done|].
  assert (∀ visited' G1,
            same_up_to_markers G G1 →
            markers_of (select_loop State tasks visited' G1).1 n
            ≠ markers_of G1 n →
            n ∈ t :: tasks
            ∧ _have_task_or_neighbors_changed n G State = Return false)
    as Hnext.
  { intros visited' G1 Hsame1 Hn.
    destruct (IH visited' G1 Hsame1 Hn) as [Hin Hfalse].
    split; [by apply list_elem_of_further|done]. }
  destruct (decide (t ∈ visited)); [by apply Hnext|].
  destruct (_have_task_or_neighbors_changed t G0 State) as [[]|e] eqn:Hchanged;
    [by apply Hnext| |done].
  rewrite (have_changed_same State t G G0 Hsame) in Hchanged.
  destruct (append_skip_unchanged t G0) as [G' [[]|e]] eqn:Happend; simpl.
  - destruct (decide (n = t)) as [->|Hne];
      [intros _; split; [apply list_elem_of_here|done]|].
    rewrite <-(append_skip_unchanged_markers _ _ _ _ n Happend Hne).
    apply Hnext. eapply same_up_to_markers_trans; [done|].
    by eapply append_skip_unchanged_same.
  - by rewrite (append_skip_unchanged_raise _ _ _ _ Happend).
Qed.

Lemma any_false (items : list (result bool)) :
  any items = Return false → Forall (λ item, item = Return false) items.
Proof.
  induction items as [|item items IH]; simpl; intros Hany;
    [apply Forall_nil_2|].
  destruct item as [[]|e]; try done.
  apply Forall_cons_2; [done|by apply IH].
Qed.

Lemma has_node_changed_false task_name node_dict :
  _has_node_changed task_name node_dict State = Return false →
  ∃ node state,
    task_or_node node_dict = Return node
    ∧ payload_state node = Return state
    ∧ State !! (task_name, payload_name node) = Some state.
Proof.
  unfold _has_node_changed, State_getitem.
  destruct (task_or_node node_dict) as [node|e]; simpl; [|done].
  destruct (payload_state node) as [state|[]] eqn:Hstate; try done.
  destruct (State !! _) as [state'|] eqn:Hdb; [|done].
  intros [= Heq%negb_false_iff%bool_decide_eq_true_1].
  exists node, state. subst. done.
Qed.

Lemma have_changed_false t :
  _have_task_or_neighbors_changed t G State = Return false →
  ∀ n, n ∈ pytask_dag.node_and_neigbors G t → stable G State t n.
Proof.
  unfold _have_task_or_neighbors_changed.
  intros Hall%any_false n Hn. rewrite Forall_fmap, Forall_forall in Hall.
  specialize (Hall n Hn). simpl in Hall.
  destruct (nx.getitem G n) as [d|] eqn:Hd; [|done].
  apply has_node_changed_false in Hall as (node & state & ? & ? & ?).
  by exists d, node, state.
Qed.

Lemma have_changed_stable t :
  (∀ n, n ∈ pytask_dag.node_and_neigbors G t → stable G State t n) →
  _have_task_or_neighbors_changed t G State = Return false.
Proof.
  unfold _have_task_or_neighbors_changed.
  induction (pytask_dag.node_and_neigbors G t) as [|n l IH]; csimpl;
    intros Hstable; [done|].
  destruct (Hstable n) as (d & p & s & -> & Hp & Hs & Hdb);
    [apply list_elem_of_here|].
  unfold _has_node_changed, State_getitem. rewrite Hp. simpl.
  rewrite Hs, Hdb. rewrite bool_decide_eq_true_2 by done. simpl.
  apply IH. intros m Hm. by apply Hstable, list_elem_of_further.
Qed.

Lemma select_changed_markers n :
  markers_of (pytask_resolve_dependencies_select_execution_dag G State).1 n
  ≠ markers_of G n →
  ∃ tasks, pytask_dag.sort_tasks_topologically G = Return tasks
           ∧ n ∈ tasks
           ∧ _have_task_or_neighbors_changed n G State = Return false.
Proof.
  unfold pytask_resolve_dependencies_select_execution_dag.
  destruct (pytask_dag.sort_tasks_topologically G) as [tasks|e] eqn:Hsort;
    [|done].
  intros Hn. exists tasks. split; [done|].
  apply (select_loop_changed_markers tasks [] G);
    [apply same_up_to_markers_refl|].
  by destruct (select_loop State tasks [] G).
Qed.

End markers.

(** X7. One pass appends at most one marker to a task: after the
    selection the markers of a task are those it had, or those followed by
    one [skip_unchanged]. *)
Theorem select_appends_at_most_one
    (G : nx.DiGraph) (State : Database) (n : string) :
  markers_of (pytask_resolve_dependencies_select_execution_dag G State).1 n
  = markers_of G n
  ∨ marked G State n.
Proof.
  unfold marked, pytask_resolve_dependencies_select_execution_dag.
  destruct (pytask_dag.sort_tasks_topologically G) as [tasks|e] eqn:Hsort;
    [|by left].
  pose proof (select_loop_at_most_one State tasks [] G n
                (sort_tasks_NoDup G tasks Hsort)) as Hloop.
  by destruct (select_loop State tasks [] G).
Qed.

(** X8. A task is marked only when nothing around it changed: if the
    pass changed the markers of [t], then [t] is a task and every node of
    its neighbourhood (the task itself, its dependencies and its products)
    has a current state, equal to the state persisted for [t] and that
    node. *)
Theorem select_marks_only_unchanged
    (G : nx.DiGraph) (State : Database) (t : string) :
  markers_of (pytask_resolve_dependencies_select_execution_dag G State).1 t
  ≠ markers_of G t →
  has_task G t
  ∧ ∀ n, n ∈ pytask_dag.node_and_neigbors G t → stable G State t n.
Proof.
  intros (tasks & Hsort & Hin & Hfalse)%select_changed_markers. split.
  - by apply (sort_tasks_is_task G tasks).
  - by apply have_changed_false.
Qed.

Lemma select_marks_only_unchanged_witness :
  has_task pipeline "B"
  ∧ ∀ n, n ∈ pytask_dag.node_and_neigbors pipeline "B" →
         stable pipeline persisted "B" n.
Proof.
  apply select_marks_only_unchanged. by vm_compute.
Defined.

(** * Markers along the paths of the graph *)

Section along_paths.
Context (G : nx.DiGraph) (State : Database).
Implicit Types (t a n x d : string) (tasks visited : list string).

Lemma descendants_upto_sound fuel u d :
  d ∈ pytask_dag.descendants_upto fuel G u → ∃ es, path G u es d.
Proof.
  revert u. induction fuel as [|fuel IH]; intros u; simpl.
  - by intros ?%elem_of_nil.
  - intros [Hd|Hd]%elem_of_app.
    + exists [(u, d)]. by apply path_one, elem_of_successors.
    + apply list_elem_of_bind in Hd as (v & Hd & Hv).
      destruct (IH _ Hd) as [es Hes]. exists ((u, v) :: es).
      apply path_cons; [by apply elem_of_successors|done].
Qed.

(** What is reached from a descending task of [c] is a descending task
    of [c]. *)
Lemma task_and_descending_tasks_closed tasks c x es d :
  pytask_dag.sort_tasks_topologically G = Return tasks →
  x ∈ pytask_dag.task_and_descending_tasks c G →
  path G x es d → has_task G d →
  d ∈ pytask_dag.task_and_descending_tasks c G.
Proof.
  intros Hsort Hx Hpath Htask.
  unfold pytask_dag.task_and_descending_tasks in Hx.
  apply elem_of_cons in Hx as [->|Hx]; [by eapply descendant_listed|].
  apply list_elem_of_filter in Hx as [_ Hx].
  apply descendants_upto_sound in Hx as [es' Hes'].
  eapply descendant_listed; [done| |done]. by eapply path_app.
Qed.

Lemma select_loop_visited_closed all_tasks tasks visited G0 G' visited' :
  pytask_dag.sort_tasks_topologically G = Return all_tasks →
  same_up_to_markers G G0 →
  visited_closed G visited →
  select_loop State tasks visited G0 = (G', Return visited') →
  visited_closed G visited'.
Proof.
  intros Hsort. revert visited G0.
  induction tasks as [|t tasks IH]; intros visited G0 Hsame Hclosed; simpl.
  - by intros [= _ <-].
  - destruct (decide (t ∈ visited)); [by apply IH|].
    destruct (_have_task_or_neighbors_changed t G0 State) as [[]|e];
      [| |done].
    + apply IH; [done|].
      rewrite (task_and_descending_tasks_same t G G0 Hsame).
      intros x es d [Hx|Hx]%elem_of_app Hpath Htask; apply elem_of_app.
      * left. by eapply Hclosed.
      * right. by eapply task_and_descending_tasks_closed.
    + destruct (append_skip_unchanged t G0) as [G1 [[]|e]] eqn:Happend;
        [|done].
      apply IH; [|done]. eapply same_up_to_markers_trans; [done|].
      by eapply append_skip_unchanged_same.
Qed.

(** When the pass changed the markers of a task, it marked the tasks
    from which that task is reached. *)
Lemma select_marks_ancestors a es t :
  path G a es t → has_task G a →
  markers_of (pytask_resolve_dependencies_select_execution_dag G State).1 t
  ≠ markers_of G t →
  marked G State a.
Proof.
  intros Hpath Ha Ht. unfold marked.
  destruct (select_changed_markers G State t Ht)
    as (tasks & Hsort & Htin & _).
  pose proof (proj2 (sort_tasks_is_task G tasks a Hsort) Ha) as Hain.
  apply list_elem_of_split in Hain as (before & after & ->).
  pose proof (descendant_not_before G _ _ _ _ _ Hsort Hpath) as Htb.
  destruct (select_loop State before [] G) as [G1 r1] eqn:Hloop.
  assert (same_up_to_markers G G1) as Hsame.
  { pose proof (select_loop_same State before [] G) as H.
    by rewrite Hloop in H. }
  assert (markers_of G1 t = markers_of G t) as Hframe.
  { pose proof (select_loop_frame State before [] G t Htb) as H.
    by rewrite Hloop in H. }
  rewrite (select_fst G State _ Hsort), select_loop_app, Hloop in Ht |- *.
  destruct r1 as [visited|e]; [|simpl in Ht; by rewrite Hframe in Ht].
  destruct (select_at_turn G State _ _ _ _ _ Hsort Hloop)
    as (_ & _ & Hab & Haa & Hframe').
  assert (visited_closed G visited) as Hclosed.
  { eapply (select_loop_visited_closed _ before [] G); try done.
    intros x ? ? Hx. by apply elem_of_nil in Hx. }
  simpl in Ht |- *.
  destruct (decide (a ∈ visited)) as [Hav|Hav].
  { destruct Ht. rewrite select_loop_visited; [done|].
    eapply Hclosed; [done..|].
    by apply (sort_tasks_is_task G _ t Hsort). }
  rewrite (have_changed_same State a G G1 Hsame) in Ht |- *.
  destruct (_have_task_or_neighbors_changed a G State) as [[]|e];
    [| |simpl in Ht; by rewrite Hframe in Ht].
  - destruct Ht. rewrite select_loop_visited; [done|].
    apply elem_of_app. right.
    rewrite (task_and_descending_tasks_same a G G1 Hsame).
    eapply descendant_listed; [done..|].
    by apply (sort_tasks_is_task G _ t Hsort).
  - destruct (append_skip_unchanged_is_task a G1) as [G2 Happend].
    { by apply (has_task_same G G1 a Hsame). }
    rewrite Happend. rewrite select_loop_frame by done.
    rewrite (append_skip_unchanged_appends _ _ _ Happend).
    by rewrite Hframe'.
Qed.

(** With every neighbourhood as persisted, no task is visited and each
    one is marked. *)
Lemma select_loop_all_unchanged tasks G0 :
  NoDup tasks →
  same_up_to_markers G G0 →
  (∀ t, t ∈ tasks → has_task G t) →
  (∀ t n, t ∈ tasks → n ∈ pytask_dag.node_and_neigbors G t →
          stable G State t n) →
  ∃ G', select_loop State tasks [] G0 = (G', Return [])
        ∧ (∀ t, t ∈ tasks →
                markers_of G' t = markers_of G0 t ++ [skip_unchanged]).
Proof.
  revert G0. induction tasks as [|t tasks IH];
    intros G0 Hnd Hsame Htasks Hstable; simpl.
  - exists G0. split; [done|]. by intros t ?%elem_of_nil.
  - apply NoDup_cons in Hnd as [Ht Hnd].
    rewrite (have_changed_same State t G G0 Hsame).
    rewrite (have_changed_stable G State t)
      by (intros n; apply Hstable, list_elem_of_here).
    destruct (append_skip_unchanged_is_task t G0) as [G1 Happend].
    { apply (has_task_same G G0 t Hsame), Htasks, list_elem_of_here. }
    rewrite Happend.
    destruct (IH G1 Hnd) as (G' & Hloop & Hmarks).
    + eapply same_up_to_markers_trans; [done|].
      by eapply append_skip_unchanged_same.
    + intros t' Ht'. by apply Htasks, list_elem_of_further.
    + intros t' n Ht'. by apply Hstable, list_elem_of_further.
    + exists G'. split; [done|]. intros t' [->|Ht']%elem_of_cons.
      * pose proof (select_loop_frame State tasks [] G1 t Ht) as Hframe.
        rewrite Hloop in Hframe. simpl in Hframe. rewrite Hframe.
        by apply append_skip_unchanged_appends.
      * rewrite (Hmarks t' Ht'). f_equal.
        eapply append_skip_unchanged_markers; [done|]. by intros ->.
Qed.

Lemma has_node_changed_same_record task_name node_dict node State' :
  task_or_node node_dict = Return node →
  State !! (task_name, payload_name node)
  = State' !! (task_name, payload_name node) →
  _has_node_changed task_name node_dict State
  = _has_node_changed task_name node_dict State'.
Proof.
  intros Hnode Hrecord. unfold _has_node_changed, State_getitem.
  rewrite Hnode. simpl. by rewrite Hrecord.
Qed.

Lemma have_changed_same_records t State' :
  same_records G State State' t →
  _have_task_or_neighbors_changed t G State
  = _have_task_or_neighbors_changed t G State'.
Proof.
  intros Hrecords. unfold _have_task_or_neighbors_changed. f_equal.
  apply list_fmap_ext. intros _ n Hn%list_elem_of_lookup_2.
  destruct (nx.getitem G n) as [d|] eqn:Hd; [|done].
  destruct (task_or_node d) as [node|e] eqn:Hnode.
  - eapply has_node_changed_same_record; [done|]. by eapply Hrecords.
  - unfold _has_node_changed. by rewrite Hnode.
Qed.

Lemma select_loop_same_records tasks visited G0 State' :
  same_up_to_markers G G0 →
  (∀ t, t ∈ tasks → same_records G State State' t) →
  select_loop State tasks visited G0 = select_loop State' tasks visited G0.
Proof.
  revert visited G0. induction tasks as [|t tasks IH];
    intros visited G0 Hsame Hrecords; simpl; [done|].
  assert (∀ t', t' ∈ tasks → same_records G State State' t') as Hrecords'.
  { intros t' Ht'. by apply Hrecords, list_elem_of_further. }
  destruct (decide (t ∈ visited)); [by apply IH|].
  rewrite !(have_changed_same _ t G G0 Hsame).
  rewrite <-(have_changed_same_records t State')
    by apply Hrecords, list_elem_of_here.
  destruct (_have_task_or_neighbors_changed t G State) as [[]|e];
    [by apply IH| |done].
  destruct (append_skip_unchanged t G0) as [G1 [[]|e]] eqn:Happend; [|done].
  apply IH; [|done]. eapply same_up_to_markers_trans; [done|].
  by eapply append_skip_unchanged_same.
Qed.

End along_paths.

(** X9. A task is skipped only together with everything it rests on: when
    the pass marks [t], it marks every task from which [t] is reached by
    a directed path. *)
Theorem select_marks_upward_closed
    (G : nx.DiGraph) (State : Database) (a t : string)
    (es : list (string * string)) :
  path G a es t → has_task G a → marked G State t → marked G State a.
Proof.
  intros Hpath Ha Ht. eapply select_marks_ancestors; [done..|].
  unfold marked in Ht. rewrite Ht. intros Heq.
  apply (f_equal length) in Heq. rewrite length_app in Heq. simpl in Heq. lia.
Qed.

Lemma select_marks_upward_closed_witness : marked pipeline persisted "A".
Proof.
  apply (select_marks_upward_closed pipeline persisted "A" "B"
           [("A", "file1"); ("file1", "B")]).
  - apply pipeline_path_A_B.
  - vm_compute. eauto.
  - by vm_compute.
Defined.

(** X10. When nothing changed everything is skipped: on a graph without
    cycle, if every node of the neighbourhood of every task is in the
    state persisted for that task and that node, the selection returns and
    has marked every task. *)
Theorem select_all_unchanged (G : nx.DiGraph) (State : Database) :
  well_formed G → ¬ has_cycle G →
  (∀ t n, has_task G t → n ∈ pytask_dag.node_and_neigbors G t →
          stable G State t n) →
  (pytask_resolve_dependencies_select_execution_dag G State).2 = Return ()
  ∧ ∀ t, has_task G t → marked G State t.
Proof.
  intros Hwf Hacyclic Hstable.
  unfold marked, pytask_resolve_dependencies_select_execution_dag.
  destruct (sort_tasks_topologically_total G Hwf Hacyclic)
    as (tasks & -> & Hnd & Hmem).
  destruct (select_loop_all_unchanged G State tasks G Hnd)
    as (G' & -> & Hmarks).
  - apply same_up_to_markers_refl.
  - intros t. apply Hmem.
  - intros t n Ht. apply Hstable. by apply Hmem.
  - split; [done|]. intros t Ht. simpl. by apply Hmarks, Hmem.
Qed.

Lemma select_all_unchanged_witness :
  (pytask_resolve_dependencies_select_execution_dag pipeline persisted).2
  = Return ()
  ∧ ∀ t, has_task pipeline t → marked pipeline persisted t.
Proof.
  apply select_all_unchanged.
  - apply well_formed_create_dag.
  - apply pipeline_acyclic.
  - intros t n Ht Hn.
    assert (t ∈ nx.names pipeline) as Hin.
    { apply getitem_is_Some. destruct Ht as [task Htask].
      destruct (nx.getitem pipeline t); [eauto|done]. }
    vm_compute in Hin.
    apply elem_of_cons in Hin as [->|Hin].
    { vm_compute in Hn.
      apply elem_of_cons in Hn as [->|Hn].
      { eexists _, (PTask task_A), _. by vm_compute. }
      apply elem_of_cons in Hn as [->|Hn].
      { eexists _, (PNode file1), _. by vm_compute. }
      by apply elem_of_nil in Hn. }
    apply elem_of_cons in Hin as [->|Hin].
    { by destruct Ht as [task Htask]. }
    apply elem_of_cons in Hin as [->|Hin]; [|by apply elem_of_nil in Hin].
    vm_compute in Hn.
    apply elem_of_cons in Hn as [->|Hn].
    { eexists _, (PTask task_B), _. by vm_compute. }
    apply elem_of_cons in Hn as [->|Hn].
    { eexists _, (PNode file1), _. by vm_compute. }
    by apply elem_of_nil in Hn.
Defined.

(** X11. The selection reads the database only under a task and the
    nodes of its neighbourhood: two databases with the same records for
    every task of the graph and the task itself, its dependencies and its
    products give the same pass. *)
Theorem select_reads_neighbourhood_records
    (G : nx.DiGraph) (State State' : Database) :
  (∀ t, has_task G t → same_records G State State' t) →
  pytask_resolve_dependencies_select_execution_dag G State
  = pytask_resolve_dependencies_select_execution_dag G State'.
Proof.
  intros Hrecords. unfold pytask_resolve_dependencies_select_execution_dag.
  destruct (pytask_dag.sort_tasks_topologically G) as [tasks|e] eqn:Hsort;
    [|done].
  rewrite (select_loop_same_records G State tasks [] G State'); [done| |].
  - apply same_up_to_markers_refl.
  - intros t Ht. by apply Hrecords, (sort_tasks_is_task G tasks).
Qed.

Lemma select_reads_neighbourhood_records_witness :
  pytask_resolve_dependencies_select_execution_dag pipeline persisted
  = pytask_resolve_dependencies_select_execution_dag pipeline
      (<[ ("A", "other_file") := "h" ]> persisted).
Proof.
  apply select_reads_neighbourhood_records.
  intros t Ht n node_dict node Hn Hd Hnode.
  rewrite lookup_insert_ne; [done|]. intros [= <- Hname].
  vm_compute in Hn.
  apply elem_of_cons in Hn as [->|Hn].
  { vm_compute in Hd. injection Hd as <-. vm_compute in Hnode.
    injection Hnode as <-. by vm_compute in Hname. }
  apply elem_of_cons in Hn as [->|Hn]; [|by apply elem_of_nil in Hn].
  vm_compute in Hd. injection Hd as <-. vm_compute in Hnode.
  injection Hnode as <-. by vm_compute in Hname.
Defined.

(** * The payloads and the edges of the built graph *)

Section build_lookup.
Implicit Types (G : nx.DiGraph) (n m u v : string) (task : Task.t).

Lemma last_filter_cons {A} (P : A → Prop) `{!∀ x, Decision (P x)}
    (x : A) (l : list A) :
  last (filter P (x :: l)) =
    match last (filter P l) with
    | Some y => Some y
    | None => if decide (P x) then Some x else None
    end.
Proof.
  rewrite filter_cons. destruct (decide (P x)); [|by destruct (last _)].
  apply last_cons.
Qed.

Lemma task_of_ensure_node n G m :
  task_of (nx.ensure_node n G) m = task_of G m.
Proof.
  unfold task_of. rewrite getitem_ensure_node.
  destruct (nx.getitem G m); [done|]. by destruct (decide (n = m)).
Qed.

Lemma node_of_ensure_node n G m :
  node_of (nx.ensure_node n G) m = node_of G m.
Proof.
  unfold node_of. rewrite getitem_ensure_node.
  destruct (nx.getitem G m); [done|]. by destruct (decide (n = m)).
Qed.

Lemma task_of_add_task_node n task G m :
  task_of (nx.add_node n (mkNodeDict (Some task) None) G) m
  = if decide (m = n) then Some task else task_of G m.
Proof.
  unfold task_of. rewrite getitem_add_node.
  destruct (decide (m = n)); [|done]. by destruct (nx.getitem G n).
Qed.

Lemma node_of_add_task_node n task G m :
  node_of (nx.add_node n (mkNodeDict (Some task) None) G) m = node_of G m.
Proof.
  unfold node_of. rewrite getitem_add_node.
  destruct (decide (m = n)) as [->|]; [|done]. by destruct (nx.getitem G n).
Qed.

Lemma task_of_add_data u v node G m :
  task_of (add_data u v node G) m = task_of G m.
Proof.
  unfold add_data, task_of. rewrite getitem_add_edge.
  fold (task_of (nx.ensure_node v (nx.ensure_node u
          (nx.add_node (Node.name node) (mkNodeDict None (Some node)) G))) m).
  rewrite !task_of_ensure_node. unfold task_of. rewrite getitem_add_node.
  destruct (decide (m = Node.name node)) as [->|]; [|done].
  by destruct (nx.getitem G (Node.name node)).
Qed.

Lemma node_of_add_data u v node G m :
  node_of (add_data u v node G) m
  = if decide (m = Node.name node) then Some node else node_of G m.
Proof.
  unfold add_data, node_of. rewrite getitem_add_edge.
  fold (node_of (nx.ensure_node v (nx.ensure_node u
          (nx.add_node (Node.name node) (mkNodeDict None (Some node)) G))) m).
  rewrite !node_of_ensure_node. unfold node_of. rewrite getitem_add_node.
  destruct (decide (m = Node.name node)) as [->|]; [|done].
  by destruct (nx.getitem G (Node.name node)).
Qed.

Lemma last_named_cons (node : Node.t) (l : list Node.t) m (other : option Node.t) :
  match last (filter (λ x, Node.name x = m) (node :: l)) with
  | Some x => Some x
  | None => other
  end
  = match last (filter (λ x, Node.name x = m) l) with
    | Some x => Some x
    | None => if decide (m = Node.name node) then Some node else other
    end.
Proof.
  rewrite last_filter_cons. destruct (last _); [done|].
  destruct (decide (Node.name node = m)), (decide (m = Node.name node));
    by subst.
Qed.

Lemma task_of_add_dependencies task G m :
  task_of (add_dependencies task G) m = task_of G m.
Proof.
  unfold add_dependencies. generalize (Task.depends_on task) as l.
  intros l. revert G. induction l as [|d l IH]; intros G; csimpl; [done|].
  fold (add_data (Node.name d) (Task.name task) d G).
  by rewrite IH, task_of_add_data.
Qed.

Lemma task_of_add_products task G m :
  task_of (add_products task G) m = task_of G m.
Proof.
  unfold add_products. generalize (Task.produces task) as l.
  intros l. revert G. induction l as [|d l IH]; intros G; csimpl; [done|].
  fold (add_data (Task.name task) (Node.name d) d G).
  by rewrite IH, task_of_add_data.
Qed.

Lemma node_of_add_dependencies task G m :
  node_of (add_dependencies task G) m
  = match last (filter (λ x, Node.name x = m) (Task.depends_on task)) with
    | Some x => Some x
    | None => node_of G m
    end.
Proof.
  unfold add_dependencies. generalize (Task.depends_on task) as l.
  intros l. revert G. induction l as [|d l IH]; intros G; [done|].
  rewrite last_named_cons. cbn [foldl].
  fold (add_data (Node.name d) (Task.name task) d G).
  by rewrite IH, node_of_add_data.
Qed.

Lemma node_of_add_products task G m :
  node_of (add_products task G) m
  = match last (filter (λ x, Node.name x = m) (Task.produces task)) with
    | Some x => Some x
    | None => node_of G m
    end.
Proof.
  unfold add_products. generalize (Task.produces task) as l.
  intros l. revert G. induction l as [|d l IH]; intros G; [done|].
  rewrite last_named_cons. cbn [foldl].
  fold (add_data (Task.name task) (Node.name d) d G).
  by rewrite IH, node_of_add_data.
Qed.

Lemma task_of_add_task G task m :
  task_of (add_task G task) m
  = if decide (m = Task.name task) then Some task else task_of G m.
Proof.
  unfold add_task.
  by rewrite task_of_add_products, task_of_add_dependencies,
    task_of_add_task_node.
Qed.

Lemma node_of_add_task G task m :
  node_of (add_task G task) m
  = match last (filter (λ x, Node.name x = m)
                  (Task.depends_on task ++ Task.produces task)) with
    | Some x => Some x
    | None => node_of G m
    end.
Proof.
  unfold add_task.
  rewrite node_of_add_products, node_of_add_dependencies,
    node_of_add_task_node, filter_app, last_app.
  by destruct (last (filter _ (Task.produces task))).
Qed.

Lemma task_of_foldl_add_task G (tasks : list Task.t) m :
  task_of (foldl add_task G tasks) m
  = match last (filter (λ task, Task.name task = m) tasks) with
    | Some task => Some task
    | None => task_of G m
    end.
Proof.
  revert G. induction tasks as [|task tasks IH]; intros G; [done|].
  cbn [foldl]. rewrite IH, task_of_add_task, last_filter_cons.
  destruct (last _); [done|].
  destruct (decide (Task.name task = m)), (decide (m = Task.name task));
    by subst.
Qed.

Lemma node_of_foldl_add_task G (tasks : list Task.t) m :
  node_of (foldl add_task G tasks) m
  = match last (filter (λ x, Node.name x = m) (declared_nodes tasks)) with
    | Some x => Some x
    | None => node_of G m
    end.
Proof.
  revert G. induction tasks as [|task tasks IH]; intros G; [done|].
  cbn [foldl]. rewrite IH, node_of_add_task. unfold declared_nodes. csimpl.
  rewrite !filter_app, !last_app.
  destruct (last (filter _ (tasks ≫= _))); [done|].
  by destruct (last (filter _ (Task.produces task))).
Qed.

Lemma NoDup_names_add_node n attr G :
  NoDup (nx.names G) → NoDup (nx.names (nx.add_node n attr G)).
Proof.
  intros Hnd. rewrite names_add_node. case_decide; [done|].
  apply NoDup_app. split; [done|]. split; [|apply NoDup_singleton].
  by intros x Hx ->%list_elem_of_singleton.
Qed.

Lemma NoDup_names_ensure_node n G :
  NoDup (nx.names G) → NoDup (nx.names (nx.ensure_node n G)).
Proof.
  intros Hnd. rewrite names_ensure_node. case_decide; [done|].
  apply NoDup_app. split; [done|]. split; [|apply NoDup_singleton].
  by intros x Hx ->%list_elem_of_singleton.
Qed.

Lemma NoDup_add_data u v node G :
  NoDup (nx.names G) ∧ NoDup (nx.edges G) →
  NoDup (nx.names (add_data u v node G))
  ∧ NoDup (nx.edges (add_data u v node G)).
Proof.
  intros [Hn He]. unfold add_data. split.
  - rewrite names_add_edge.
    by apply NoDup_names_ensure_node, NoDup_names_ensure_node,
      NoDup_names_add_node.
  - rewrite edges_add_edge, edges_add_node. case_decide; [done|].
    apply NoDup_app. split; [done|]. split; [|apply NoDup_singleton].
    by intros x Hx ->%list_elem_of_singleton.
Qed.

Lemma NoDup_add_task G task :
  NoDup (nx.names G) ∧ NoDup (nx.edges G) →
  NoDup (nx.names (add_task G task)) ∧ NoDup (nx.edges (add_task G task)).
Proof.
  intros [Hn He]. unfold add_task, add_products, add_dependencies.
  assert (∀ (f : Node.t → string * string) l G0,
            NoDup (nx.names G0) ∧ NoDup (nx.edges G0) →
            let G1 := foldl (λ dag x, add_data (f x).1 (f x).2 x dag) G0 l in
            NoDup (nx.names G1) ∧ NoDup (nx.edges G1)) as Hfold.
  { intros f l. induction l as [|x l IH]; intros G0 HG0; [done|].
    simpl. apply IH. by apply NoDup_add_data. }
  apply (Hfold (λ x, (Task.name task, Node.name x))).
  apply (Hfold (λ x, (Node.name x, Task.name task))).
  split; [by apply NoDup_names_add_node|by rewrite edges_add_node].
Qed.

End build_lookup.

(** The edges of the built graph, read off the declarations. *)
Lemma elem_of_edges_create_dag (tasks : list Task.t) u v :
  (u, v) ∈ nx.edges (pytask_resolve_dependencies_create_dag tasks)
  ↔ ∃ task, task ∈ tasks
            ∧ (v = Task.name task
               ∧ u ∈ Node.name <$> Task.depends_on task
               ∨ u = Task.name task
                 ∧ v ∈ Node.name <$> Task.produces task).
Proof.
  rewrite <-(elem_of_list_to_set (C := gset (string * string))).
  fold (edge_set (pytask_resolve_dependencies_create_dag tasks)).
  rewrite edge_set_create_dag, elem_of_union_list. split.
  - intros (E & HE & Huv).
    apply list_elem_of_fmap in HE as (task & -> & Htask).
    exists task. split; [done|]. unfold task_edges in Huv.
    apply elem_of_union in Huv as [Huv|Huv];
      apply elem_of_list_to_set, list_elem_of_fmap in Huv
        as (x & [= -> ->] & Hx).
    + left. split; [done|]. by apply list_elem_of_fmap_2.
    + right. split; [done|]. by apply list_elem_of_fmap_2.
  - intros (task & Htask & Huv). exists (task_edges task).
    split; [by apply list_elem_of_fmap_2|]. unfold task_edges.
    destruct Huv as [[-> Hu]|[-> Hv]].
    + apply list_elem_of_fmap in Hu as (x & -> & Hx).
      apply elem_of_union_l, elem_of_list_to_set.
      by apply (list_elem_of_fmap_2 (λ d, (Node.name d, Task.name task))).
    + apply list_elem_of_fmap in Hv as (x & -> & Hx).
      apply elem_of_union_r, elem_of_list_to_set.
      by apply (list_elem_of_fmap_2 (λ p, (Task.name task, Node.name p))).
Qed.

(** X12. Under a name the built graph holds the last declaration: the
    task of a node is the last task declared with the name of the node,
    and its data node is the last dependency or product declared with that
    name (in the order of the build); a payload is absent when nothing is
    declared under the name. *)
Theorem create_dag_holds_last_declared (tasks : list Task.t) (n : string) :
  let G := pytask_resolve_dependencies_create_dag tasks in
  task_of G n = last (filter (λ task, Task.name task = n) tasks)
  ∧ node_of G n = last (filter (λ x, Node.name x = n) (declared_nodes tasks)).
Proof.
  unfold pytask_resolve_dependencies_create_dag. split.
  - rewrite task_of_foldl_add_task. by destruct (last _).
  - rewrite node_of_foldl_add_task. by destruct (last _).
Qed.

(** X13. The edges of the built graph are exactly the declarations: an
    edge leads from [u] to [v] if and only if some task named [v] depends
    on a node named [u] or some task named [u] produces a node named [v];
    no edge and no node comes twice. *)
Theorem create_dag_edges_exact (tasks : list Task.t) :
  let G := pytask_resolve_dependencies_create_dag tasks in
  (∀ u v,
     (u, v) ∈ nx.edges G
     ↔ ∃ task, task ∈ tasks
               ∧ (v = Task.name task
                  ∧ u ∈ Node.name <$> Task.depends_on task
                  ∨ u = Task.name task
                    ∧ v ∈ Node.name <$> Task.produces task))
  ∧ NoDup (nx.edges G)
  ∧ NoDup (nx.names G).
Proof.
  intros G. split; [apply elem_of_edges_create_dag|].
  assert (∀ G0, NoDup (nx.names G0) ∧ NoDup (nx.edges G0) →
                NoDup (nx.names (foldl add_task G0 tasks))
                ∧ NoDup (nx.edges (foldl add_task G0 tasks))) as Hfold.
  { induction tasks as [|task tasks' IH]; intros G0 HG0; [done|].
    simpl. apply IH. by apply NoDup_add_task. }
  destruct (Hfold nx.empty) as [Hn He].
  { split; apply NoDup_nil_2. }
  done.
Qed.

(** * The whole resolution *)

Section resolution.
Context (tasks : list Task.t).
Let G := pytask_resolve_dependencies_create_dag tasks.

Lemma created_task_declared n task :
  task_of G n = Some task → task ∈ tasks.
Proof.
  unfold G, pytask_resolve_dependencies_create_dag.
  rewrite task_of_foldl_add_task.
  destruct (last _) as [task'|] eqn:Hlast; [|done]. intros [= ->].
  by apply last_Some_elem_of, list_elem_of_filter in Hlast as [_ ?].
Qed.

Lemma created_node_declared n node :
  node_of G n = Some node → node ∈ declared_nodes tasks.
Proof.
  unfold G, pytask_resolve_dependencies_create_dag.
  rewrite node_of_foldl_add_task.
  destruct (last _) as [node'|] eqn:Hlast; [|done]. intros [= ->].
  by apply last_Some_elem_of, list_elem_of_filter in Hlast as [_ ?].
Qed.

Lemma created_node_has_payload n :
  n ∈ nx.names G → has_task G n ∨ has_node G n.
Proof.
  intros Hn. apply (elem_of_list_to_set (C := gset string)) in Hn.
  fold (node_set G) in Hn. unfold G in *.
  rewrite node_set_create_dag, elem_of_union_task_nodes in Hn.
  unfold pytask_resolve_dependencies_create_dag.
  rewrite has_task_foldl_add_task, has_node_foldl_add_task. tauto.
Qed.

Lemma created_queries_answer :
  (∀ task what, task ∈ tasks → Task.state task ≠ Fault what) →
  (∀ node what, node ∈ declared_nodes tasks → Node.state node ≠ Fault what) →
  queries_answer G.
Proof.
  intros Htasks Hnodes n Hn.
  destruct (created_node_has_payload n Hn) as [[task Htask]|[node Hnode]].
  - pose proof (created_task_declared n task Htask) as Hin.
    unfold task_of in Htask.
    destruct (nx.getitem G n) as [d|]; [|done]. simpl in Htask.
    exists d, (PTask task). split; [done|]. unfold task_or_node.
    rewrite Htask. split; [done|]. intros what. simpl.
    specialize (Htasks task what Hin).
    destruct (Task.state task) as [| |what']; simpl; congruence.
  - pose proof (created_node_declared n node Hnode) as Hin.
    unfold node_of in Hnode.
    destruct (nx.getitem G n) as [d|] eqn:Hd; [|done]. simpl in Hnode.
    destruct (attr_task d) as [task|] eqn:Htask.
    + assert (task ∈ tasks) as Hin'.
      { apply (created_task_declared n). unfold task_of.
        by rewrite Hd. }
      exists d, (PTask task). split; [done|]. unfold task_or_node.
      rewrite Htask. split; [done|]. intros what. simpl.
      specialize (Htasks task what Hin').
      destruct (Task.state task) as [| |what']; simpl; congruence.
    + exists d, (PNode node). split; [done|]. unfold task_or_node.
      rewrite Htask, Hnode. split; [done|]. intros what. simpl.
      specialize (Hnodes node what Hin).
      destruct (Node.state node) as [| |what']; simpl; congruence.
Qed.

Lemma created_roots_without_fault :
  (∀ node what, node ∈ declared_nodes tasks → Node.state node ≠ Fault what) →
  roots_without_fault G.
Proof.
  intros Hnodes n node what (_ & Hnode & _).
  apply Hnodes. by apply (created_node_declared n).
Qed.

End resolution.

(** X14. The resolution succeeds on sound declarations: when the graph
    built from the tasks of the session has no directed cycle and no
    missing root, and no state query of a task, dependency or product
    fails with a fault of its own, [pytask_resolve_dependencies] returns
    [True] and leaves in the session the graph with the markers of the
    selection; no report is stored and nothing is logged. *)
Theorem resolve_dependencies_succeeds (session : Session) (State : Database) :
  let G := pytask_resolve_dependencies_create_dag (tasks session) in
  ¬ has_cycle G →
  (∀ n, ¬ missing_root G n) →
  (∀ task what, task ∈ tasks session → Task.state task ≠ Fault what) →
  (∀ node what, node ∈ declared_nodes (tasks session) →
                Node.state node ≠ Fault what) →
  ∃ session',
    pytask_resolve_dependencies session State = (session', Return true)
    ∧ dag session'
      = Some (pytask_resolve_dependencies_select_execution_dag G State).1
    ∧ resolving_dependencies_report session'
      = resolving_dependencies_report session
    ∧ terminal session' = terminal session.
Proof.
  intros G Hacyclic Hroots Htasks Hnodes.
  pose proof (well_formed_create_dag (tasks session)) as Hwf. fold G in Hwf.
  assert (pytask_resolve_dependencies_validate_dag G = Return ()) as Hvalid.
  { unfold pytask_resolve_dependencies_validate_dag.
    rewrite (check_cycles_acyclic G Hacyclic). simpl.
    unfold _check_if_root_nodes_are_available.
    pose proof (root_nodes_loop_spec G (nx.names G) (λ n H, H)
                  (created_roots_without_fault _ Hnodes)) as Hspec.
    destruct (root_nodes_loop G (nx.names G)) as [[]|e]; [done|].
    destruct Hspec as (n & _ & Hmissing & _). by destruct (Hroots n). }
  assert ((pytask_resolve_dependencies_select_execution_dag G State).2
          = Return ()) as Hselect.
  { unfold pytask_resolve_dependencies_select_execution_dag.
    destruct (sort_tasks_topologically_total G Hwf Hacyclic)
      as (sorted & -> & _ & Hmem).
    destruct (select_loop_returns G State sorted [] G Hwf
                (created_queries_answer _ Htasks Hnodes)) as [v Hv].
    - apply same_up_to_markers_refl.
    - intros t. apply Hmem.
    - destruct (select_loop State sorted [] G) as [G' r]. simpl in *.
      by subst. }
  unfold pytask_resolve_dependencies. fold G. rewrite Hvalid.
  destruct (pytask_resolve_dependencies_select_execution_dag G State)
    as [G' r]. simpl in Hselect. subst. eexists. split; [done|]. done.
Qed.

Lemma resolve_dependencies_succeeds_witness :
  ∃ session',
    pytask_resolve_dependencies (mkSession [task_A; task_B] None None [])
      persisted
    = (session', Return true)
    ∧ dag session'
      = Some (pytask_resolve_dependencies_select_execution_dag pipeline
                persisted).1
    ∧ resolving_dependencies_report session' = None
    ∧ terminal session' = [].
Proof.
  apply (resolve_dependencies_succeeds
           (mkSession [task_A; task_B] None None []) persisted).
  - apply pipeline_acyclic.
  - intros n (payload & (Hn & Hp & Hpreds) & Hstate). vm_compute in Hn.
    apply elem_of_cons in Hn as [->|Hn]; [by vm_compute in Hp|].
    apply elem_of_cons in Hn as [->|Hn]; [by vm_compute in Hpreds|].
    apply elem_of_cons in Hn as [->|Hn]; [by vm_compute in Hp|].
    by apply elem_of_nil in Hn.
  - intros task what Htask. simpl in Htask.
    apply elem_of_cons in Htask as [->|Htask]; [done|].
    apply elem_of_cons in Htask as [->|Htask]; [done|].
    by apply elem_of_nil in Htask.
  - intros node what Hnode. vm_compute in Hnode.
    apply elem_of_cons in Hnode as [->|Hnode]; [done|].
    apply elem_of_cons in Hnode as [->|Hnode]; [done|].
    by apply elem_of_nil in Hnode.
Defined.

(** * What the log prints *)

Lemma string_append_length (s1 s2 : string) :
  String.length (s1 +:+ s2) = String.length s1 + String.length s2.
Proof. induction s1 as [|c s1 IH]; simpl; [done|by rewrite IH]. Qed.

Lemma str_mul_length s n :
  String.length (str_mul s n) = n * String.length s.
Proof.
  induction n as [|n IH]; simpl; [done|].
  by rewrite string_append_length, IH.
Qed.

(** X15. The banner and the closing rule fit the terminal: the title is
    printed between as many [=] on the left as on the right, or one more
    on the right; the banner is as wide as the terminal, or as the title
    (38 characters) when the terminal is narrower, and the closing rule is
    as wide as the terminal. *)
Theorem log_echo_widths (tm_width : nat) :
  ∃ left right banner rule,
    pytask_resolve_dependencies_log_echo tm_width
    = [banner; EmptyString; rule]
    ∧ banner = str_mul "=" left +:+ errors_title +:+ str_mul "=" right
    ∧ left ≤ right ≤ left + 1
    ∧ String.length banner = tm_width `max` String.length errors_title
    ∧ rule = str_mul "=" tm_width
    ∧ String.length rule = tm_width.
Proof.
  pose proof (Nat.div_mod_eq (tm_width - 38) 2) as Hdiv.
  pose proof (Nat.mod_upper_bound (tm_width - 38) 2) as Hmod.
  exists ((tm_width - 38) / 2), (tm_width - 38 - (tm_width - 38) / 2).
  do 2 eexists. split; [done|]. split; [done|].
  remember ((tm_width - 38) / 2) as half. split; [lia|]. split.
  - unfold format_centered.
    change (String.length errors_title) with 38. rewrite <- Heqhalf.
    rewrite !string_append_length, !str_mul_length.
    change (String.length errors_title) with 38.
    change (String.length "=") with 1. lia.
  - split; [done|]. rewrite str_mul_length.
    change (String.length "=") with 1. lia.
Qed.

(** * The selection does not read the markers *)

Section markers_unread.
Context (State : Database).
Implicit Types (G : nx.DiGraph) (t n : string) (tasks visited : list string).

Lemma same_up_to_markers_sym G G' :
  same_up_to_markers G G' → same_up_to_markers G' G.
Proof. intros (He & Hl & Hg). by split; [|split]. Qed.

Lemma topological_order_same_edges fuel G G' remaining emitted :
  nx.edges G' = nx.edges G →
  pytask_dag.topological_order fuel G' remaining emitted
  = pytask_dag.topological_order fuel G remaining emitted.
Proof.
  intros He. revert remaining emitted.
  induction fuel as [|fuel IH]; intros remaining emitted;
    destruct remaining as [|r remaining]; cbn [pytask_dag.topological_order];
    try done.
  rewrite (list_find_ext (pytask_dag.ready G' emitted)
             (pytask_dag.ready G emitted)).
  - destruct (list_find _ _) as [[i v]|]; [apply IH|done].
  - intros v. unfold pytask_dag.ready, nx.predecessors. by rewrite He.
Qed.

Lemma sort_tasks_topologically_same G G' :
  same_up_to_markers G G' → nx.names G' = nx.names G →
  pytask_dag.sort_tasks_topologically G'
  = pytask_dag.sort_tasks_topologically G.
Proof.
  intros Hsame Hnames. pose proof Hsame as (He & Hl & _).
  unfold pytask_dag.sort_tasks_topologically.
  rewrite Hl, Hnames, (topological_order_same_edges _ G G') by done.
  destruct (pytask_dag.topological_order _ _ _ _) as [order|e]; [|done].
  simpl. f_equal. apply list_filter_iff. intros n.
  by apply has_task_same.
Qed.

Lemma append_skip_unchanged_both t G G' G1 G1' r r' :
  same_up_to_markers G G' →
  append_skip_unchanged t G = (G1, r) →
  append_skip_unchanged t G' = (G1', r') →
  r' = r.
Proof.
  intros (_ & _ & Hg). specialize (Hg t). unfold append_skip_unchanged.
  destruct (nx.getitem G' t) as [d'|], (nx.getitem G t) as [d|];
    simpl in Hg; try done; [|congruence].
  assert (unmark_dict d' = unmark_dict d) as Hd by congruence.
  unfold unmark_dict in Hd. injection Hd as Hd _.
  destruct (attr_task d'), (attr_task d); try done; congruence.
Qed.

Lemma select_loop_markers_unread tasks visited G G' :
  same_up_to_markers G G' →
  (select_loop State tasks visited G').2
  = (select_loop State tasks visited G).2
  ∧ ∀ n, ∃ added,
      markers_of (select_loop State tasks visited G).1 n
      = markers_of G n ++ added
      ∧ markers_of (select_loop State tasks visited G').1 n
        = markers_of G' n ++ added.
Proof.
  revert visited G G'. induction tasks as [|t tasks IH];
    intros visited G G' Hsame; simpl.
  { split; [done|]. intros n. exists []. by rewrite !app_nil_r. }
  destruct (decide (t ∈ visited)) as [|_]; [by apply IH|].
  rewrite (have_changed_same State t G G' Hsame).
  rewrite (task_and_descending_tasks_same t G G' Hsame).
  destruct (_have_task_or_neighbors_changed t G State) as [[]|e];
    [by apply IH| |].
  - destruct (append_skip_unchanged t G) as [G1 r] eqn:Happend.
    destruct (append_skip_unchanged t G') as [G1' r'] eqn:Happend'.
    pose proof (append_skip_unchanged_both _ _ _ _ _ _ _
                  Hsame Happend Happend') as ->.
    assert (same_up_to_markers G1 G1') as Hsame1.
    { eapply same_up_to_markers_trans;
        [apply same_up_to_markers_sym;
         by eapply append_skip_unchanged_same|].
      eapply same_up_to_markers_trans; [done|].
      by eapply append_skip_unchanged_same. }
    destruct r as [[]|e]; simpl.
    + destruct (IH visited G1 G1' Hsame1) as [Hr Hmarkers].
      split; [done|]. intros n.
      destruct (Hmarkers n) as (added & -> & ->).
      destruct (decide (n = t)) as [->|Hne].
      * exists (skip_unchanged :: added).
        rewrite (append_skip_unchanged_appends _ _ _ Happend).
        rewrite (append_skip_unchanged_appends _ _ _ Happend').
        by rewrite <-!app_assoc.
      * exists added.
        rewrite (append_skip_unchanged_markers _ _ _ _ n Happend Hne).
        by rewrite (append_skip_unchanged_markers _ _ _ _ n Happend' Hne).
    + split; [done|]. intros n. exists [].
      rewrite (append_skip_unchanged_raise _ _ _ _ Happend).
      rewrite (append_skip_unchanged_raise _ _ _ _ Happend').
      by rewrite !app_nil_r.
  - split; [done|]. intros n. exists []. by rewrite !app_nil_r.
Qed.

End markers_unread.

(** X16. The selection does not read the markers: on two graphs that
    differ only in the markers their tasks carry, it ends the same way
    (returns, or raises the same exception) and appends the same markers
    to the same tasks. *)
Theorem select_ignores_markers (G G' : nx.DiGraph) (State : Database) :
  same_up_to_markers G G' → nx.names G' = nx.names G →
  (pytask_resolve_dependencies_select_execution_dag G' State).2
  = (pytask_resolve_dependencies_select_execution_dag G State).2
  ∧ ∀ n, ∃ added,
      markers_of (pytask_resolve_dependencies_select_execution_dag G State).1 n
      = markers_of G n ++ added
      ∧ markers_of (pytask_resolve_dependencies_select_execution_dag G' State).1 n
        = markers_of G' n ++ added.
Proof.
  intros Hsame Hnames.
  unfold pytask_resolve_dependencies_select_execution_dag.
  rewrite (sort_tasks_topologically_same G G' Hsame Hnames).
  destruct (pytask_dag.sort_tasks_topologically G) as [tasks|e]; simpl.
  - destruct (select_loop_markers_unread State tasks [] G G' Hsame)
      as [Hr Hmarkers].
    destruct (select_loop State tasks [] G) as [G1 r],
             (select_loop State tasks [] G') as [G1' r'].
    simpl in *. by subst.
  - split; [done|]. intros n. exists []. by rewrite !app_nil_r.
Qed.

(** The pipeline, with a marker already on task A. *)
Lemma select_ignores_markers_witness :
  let marked_before := (append_skip_unchanged "A" pipeline).1 in
  (pytask_resolve_dependencies_select_execution_dag marked_before persisted).2
  = (pytask_resolve_dependencies_select_execution_dag pipeline persisted).2
  ∧ ∀ n, ∃ added,
      markers_of
        (pytask_resolve_dependencies_select_execution_dag pipeline persisted).1 n
      = markers_of pipeline n ++ added
      ∧ markers_of
          (pytask_resolve_dependencies_select_execution_dag marked_before
             persisted).1 n
        = markers_of marked_before n ++ added.
Proof.
  apply (select_ignores_markers pipeline
           (append_skip_unchanged "A" pipeline).1 persisted).
  - apply (append_skip_unchanged_same "A" pipeline _
             (append_skip_unchanged "A" pipeline).2).
    by destruct (append_skip_unchanged "A" pipeline).
  - by vm_compute.
Defined.

(** * The roots of a built graph *)

Section built_roots.
Context (tasks : list Task.t).
Let G := pytask_resolve_dependencies_create_dag tasks.

Lemma predecessors_nil n :
  nx.predecessors G n = [] ↔ ∀ u, (u, n) ∉ nx.edges G.
Proof.
  split.
  - intros Hnil u Hu. apply elem_of_predecessors in Hu.
    rewrite Hnil in Hu. by apply elem_of_nil in Hu.
  - intros Hnone. destruct (nx.predecessors G n) as [|u l] eqn:Hpreds;
      [done|].
    destruct (Hnone u). apply elem_of_predecessors. rewrite Hpreds.
    apply list_elem_of_here.
Qed.

Lemma root_node_create_dag n payload :
  root_node G n payload
  ↔ last (filter (λ x, Node.name x = n) (declared_nodes tasks)) = Some payload
    ∧ (∀ task, task ∈ tasks → n ∉ Node.name <$> Task.produces task)
    ∧ (∀ task, task ∈ tasks → Task.name task = n →
               Task.depends_on task = []).
Proof.
  unfold root_node. fold (node_of G n). rewrite predecessors_nil.
  assert (node_of G n
          = last (filter (λ x, Node.name x = n) (declared_nodes tasks)))
    as ->.
  { unfold G, pytask_resolve_dependencies_create_dag.
    rewrite node_of_foldl_add_task. by destruct (last _). }
  split.
  - intros (_ & Hlast & Hnone). split; [done|]. split.
    + intros task Htask Hn. destruct (Hnone (Task.name task)).
      apply elem_of_edges_create_dag. exists task. split; [done|].
      by right.
    + intros task Htask <-.
      destruct (Task.depends_on task) as [|d deps] eqn:Hdeps; [done|].
      destruct (Hnone (Node.name d)).
      apply elem_of_edges_create_dag. exists task. split; [done|].
      left. split; [done|]. rewrite Hdeps. csimpl. apply list_elem_of_here.
  - intros (Hlast & Hproduced & Hdepends). split; [|split; [done|]].
    + apply last_Some_elem_of, list_elem_of_filter in Hlast as [<- Hin].
      apply (elem_of_list_to_set (C := gset string)).
      fold (node_set G). unfold G.
      rewrite node_set_create_dag, elem_of_union_task_nodes. right.
      unfold declared_nodes in Hin.
      apply list_elem_of_bind in Hin as (task & Hin & Htask).
      apply list_elem_of_bind. exists task. split; [|done].
      by apply list_elem_of_fmap_2.
    + intros u Hu. apply elem_of_edges_create_dag in Hu
        as (task & Htask & [[-> Hu]|[-> Hn]]).
      * rewrite (Hdepends task Htask eq_refl) in Hu.
        by apply elem_of_nil in Hu.
      * by destruct (Hproduced task Htask).
Qed.

End built_roots.

(** X17. The roots of a built graph are the dependencies that no task
    produces: a node is a root with a given data payload if and only if
    that payload is the last dependency or product declared under the
    name, no task produces a node of the name, and a task of the name (a
    collision) has no dependency. *)
Theorem create_dag_root_nodes (tasks : list Task.t) (n : string)
    (payload : Node.t) :
  root_node (pytask_resolve_dependencies_create_dag tasks) n payload
  ↔ last (filter (λ x, Node.name x = n) (declared_nodes tasks)) = Some payload
    ∧ (∀ task, task ∈ tasks → n ∉ Node.name <$> Task.produces task)
    ∧ (∀ task, task ∈ tasks → Task.name task = n →
               Task.depends_on task = []).
Proof. apply root_node_create_dag. Qed.

(** X18. Products need not exist: the graph built from the declarations
    passes the validation when it has no directed cycle and every
    dependency that no task produces exists, whatever the state of the
    products. *)
Theorem create_dag_validates_without_products (tasks : list Task.t) :
  let G := pytask_resolve_dependencies_create_dag tasks in
  ¬ has_cycle G →
  (∀ node, node ∈ declared_nodes tasks →
           (∃ task, task ∈ tasks
                    ∧ Node.name node ∈ Node.name <$> Task.produces task)
           ∨ ∃ state, Node.state node = Exists state) →
  pytask_resolve_dependencies_validate_dag G = Return ().
Proof.
  intros G Hacyclic Hexist.
  assert (∀ n payload, root_node G n payload →
                       ∃ state, Node.state payload = Exists state) as Hroots.
  { intros n payload (Hlast & Hproduced & _)%root_node_create_dag.
    apply last_Some_elem_of, list_elem_of_filter in Hlast as [<- Hin].
    destruct (Hexist payload Hin) as [(task & Htask & Hp)|?]; [|done].
    by destruct (Hproduced task Htask). }
  unfold pytask_resolve_dependencies_validate_dag.
  rewrite (check_cycles_acyclic G Hacyclic). simpl.
  unfold _check_if_root_nodes_are_available.
  assert (roots_without_fault G) as Hfault.
  { intros n payload what Hroot.
    destruct (Hroots n payload Hroot) as [state ->]. done. }
  pose proof (root_nodes_loop_spec G (nx.names G) (λ n H, H) Hfault) as Hspec.
  destruct (root_nodes_loop G (nx.names G)) as [[]|e]; [done|].
  destruct Hspec as (n & _ & (payload & Hroot & Hmissing) & _).
  destruct (Hroots n payload Hroot) as [state Hstate]. congruence.
Qed.

Lemma create_dag_validates_without_products_witness :
  pytask_resolve_dependencies_validate_dag
    (pytask_resolve_dependencies_create_dag
       [ Task.mk "A" [file1] [Node.mk "out" Missing] [] (Exists "sA");
         Task.mk "B" [Node.mk "out" Missing] [] [] Missing ])
  = Return ().
Proof.
  apply create_dag_validates_without_products.
  - apply find_cycle_complete; [apply well_formed_create_dag|].
    by vm_compute.
  - intros node Hnode. vm_compute in Hnode.
    apply elem_of_cons in Hnode as [->|Hnode]; [right; by exists "h1"|].
    apply elem_of_cons in Hnode as [->|Hnode].
    { left. eexists. split; [apply list_elem_of_here|].
      csimpl. apply list_elem_of_here. }
    apply elem_of_cons in Hnode as [->|Hnode].
    { left. eexists. split; [apply list_elem_of_here|].
      csimpl. apply list_elem_of_here. }
    by apply elem_of_nil in Hnode.
Defined.
